(** * One-dimensional periodic heat equation: serial and MPI kernels

    A shallow embedding of [src/heat.c] ([array_copy], [heat_serial],
    [heat_parallel]) and the properties of its Forward-Euler stencil.

    - [double] is IEEE 754 binary64 as specified by the standard library's
      [SpecFloat] (round to nearest, ties to even; one NaN, so "bitwise"
      equality is equality up to the payload of NaN).  Every C operator is one
      correctly rounded binary64 operation: no fused multiply-add and no
      extended intermediate precision.
    - [size_t] is a 64-bit unsigned integer on [N] with its wrap-around, and
      [int] is a 32-bit signed integer on [Z] whose overflow is undefined.
    - A buffer is a list of cells; a cell of freshly allocated storage holds
      no value.  Reading outside a buffer or reading such a cell is undefined
      behaviour and makes the computation fail ([None], [Abort]).
    - [malloc] is assumed to succeed, as the source does. *)

From Stdlib Require Import ZArith NArith Lia Floats.SpecFloat.
From stdpp Require Import base tactics option list numbers relations.

(** ** Double-precision arithmetic *)

Module Double.

Definition double : Type := spec_float.

Definition prec : Z := 53.
Definition emax : Z := 1024.

Definition dadd : double -> double -> double := SFadd prec emax.
Definition dsub : double -> double -> double := SFsub prec emax.
Definition dmul : double -> double -> double := SFmul prec emax.
Definition ddiv : double -> double -> double := SFdiv prec emax.

(** The value [m * 2^e], rounded to binary64 (exact when [m] has at most
    53 bits and the exponent is in range). *)
Definition dyadic (m e : Z) : double := binary_normalize prec emax m e false.

(** Conversion of an [int] to [double], as C applies it to the literal
    [2] in [2*ut[i]]. *)
Definition of_int (z : Z) : double := dyadic z 0.

Definition is_finite (x : double) : bool :=
  match x with
  | S754_zero _ | S754_finite _ _ _ => true
  | S754_infinity _ | S754_nan => false
  end.

(** [DBL_MAX], the largest finite double. *)
Definition DBL_MAX : double := SFmax_float prec emax.

Definition is_neg_zero (x : double) : bool :=
  match x with
  | S754_zero true => true
  | _ => false
  end.

End Double.
Export Double.

#[global] Instance double_inhabited : Inhabited double :=
  populate (S754_zero false).

Declare Scope double_scope.
Delimit Scope double_scope with double.
Bind Scope double_scope with double.
Infix "+" := dadd : double_scope.
Infix "-" := dsub : double_scope.
Infix "*" := dmul : double_scope.
Infix "/" := ddiv : double_scope.

#[global] Arguments dadd : simpl never.
#[global] Arguments dsub : simpl never.
#[global] Arguments dmul : simpl never.
#[global] Arguments ddiv : simpl never.
#[global] Arguments of_int : simpl never.

(** ** [size_t] and buffers *)

Abbreviation size_t := N (only parsing).

Definition SIZE_MOD : N := 2 ^ 64.

Definition size_add (a b : size_t) : size_t := ((a + b) mod SIZE_MOD)%N.
Definition size_mul (a b : size_t) : size_t := ((a * b) mod SIZE_MOD)%N.
Definition size_sub (a b : size_t) : size_t :=
  Z.to_N ((Z.of_N a - Z.of_N b) mod Z.of_N SIZE_MOD).

Definition sizeof_double : size_t := 8%N.

(** A cell holds a value once it has been written. *)
Abbreviation buf := (list (option double)) (only parsing).

(** [(double* ) malloc(bytes)]: as many indeterminate cells as fit. *)
Definition malloc (bytes : size_t) : buf :=
  replicate (N.to_nat (bytes / sizeof_double)) None.

(** [b[i]] as an rvalue. *)
Definition load (b : buf) (i : size_t) : option double :=
  match b !! N.to_nat i with
  | Some (Some x) => Some x
  | _ => None
  end.

(** [b[i] = x]. *)
Definition store (b : buf) (i : size_t) (x : double) : option buf :=
  if decide (N.to_nat i < length b)
  then Some (<[N.to_nat i := Some x]> b)
  else None.

(** [for (size_t i = lo; i < hi; ++i) body]: the body does not assign [i],
    so it runs [hi - lo] times, or not at all when [hi <= lo]; it stops at
    the first undefined access. *)
Fixpoint for_range {S : Type} (n : nat) (i : size_t)
    (body : size_t -> S -> option S) (s : S) : option S :=
  match n with
  | O => Some s
  | S n' => s' ← body i s; for_range n' (size_add i 1) body s'
  end.

Definition for_loop {S : Type} (lo hi : size_t)
    (body : size_t -> S -> option S) (s : S) : option S :=
  for_range (N.to_nat (hi - lo)) lo body s.

(** ** The source functions *)

(** [void array_copy(double* toarray, double* fromarray, size_t length)];
    the result is the new content of [toarray]. *)
Definition array_copy (toarray fromarray : buf) (length : size_t) : option buf :=
  for_loop 0%N length
    (fun i toarray => x ← load fromarray i; store toarray i x)
    toarray.

(** The right-hand side [b + nu*(a - 2*b + c)] of the three updates, with
    C's parse [b + (nu * ((a - (2*b)) + c))]. *)
Definition forward_euler (nu a b c : double) : double :=
  (b + nu * (a - of_int 2 * b + c))%double.

(** One pass of the time loop of [heat_serial] on the pair of pointers
    ([ut], [utp1]). *)
Definition heat_serial_step (nu : double) (Nx : size_t)
    (p : buf * buf) : option (buf * buf) :=
  let '(ut, utp1) := p in
  utp1 ← for_loop 1%N (size_sub Nx 1)
    (fun i utp1 =>
       a ← load ut (size_sub i 1);
       b ← load ut i;
       c ← load ut (size_add i 1);
       store utp1 i (forward_euler nu a b c))
    utp1;
  b ← load ut 0%N;
  a ← load ut (size_sub Nx 1);
  c ← load ut 1%N;
  utp1 ← store utp1 0%N (forward_euler nu a b c);
  b ← load ut (size_sub Nx 1);
  a ← load ut (size_sub Nx 2);
  c ← load ut 0%N;
  utp1 ← store utp1 (size_sub Nx 1) (forward_euler nu a b c);
  let temp := ut in
  let ut := utp1 in
  let utp1 := temp in
  Some (ut, utp1).

(** [void heat_serial(double* u, double dx, size_t Nx, double dt, size_t Nt)];
    the result is the new content of [u]. *)
Definition heat_serial (u : buf) (dx : double) (Nx : size_t) (dt : double)
    (Nt : size_t) : option buf :=
  let ut := malloc (size_mul Nx sizeof_double) in
  let utp1 := malloc (size_mul Nx sizeof_double) in
  ut ← array_copy ut u Nx;
  let nu := (dt / (dx * dx))%double in
  '(ut, utp1) ← for_loop 0%N Nt (fun _ => heat_serial_step nu Nx) (ut, utp1);
  array_copy u ut Nx.

(** The buffer whose cells hold the values [vs]. *)
Definition field (vs : list double) : buf := Some <$> vs.

(** A buffer of [Nx] doubles fits the address space: [Nx * sizeof(double)]
    does not wrap. *)
Definition addressable (Nx : size_t) : Prop := (Nx * sizeof_double < SIZE_MOD)%N.

(** ** The periodic stencil as a function on fields *)

(** The value of grid point [i] after one Euler step of the periodic field
    [vs]: its neighbours are taken modulo the length. *)
Definition euler_at (nu : double) (vs : list double) (i : nat) : double :=
  let n := length vs in
  forward_euler nu (vs !!! ((i + n - 1) mod n)) (vs !!! i) (vs !!! ((i + 1) mod n)).

Definition euler_field (nu : double) (vs : list double) : list double :=
  euler_at nu vs <$> seq 0 (length vs).

(** [k] Euler steps of a periodic field. *)
Definition euler_steps (nu : double) (k : nat) (vs : list double) : list double :=
  Nat.iter k (euler_field nu) vs.

#[global] Arguments euler_steps : simpl never.
#[global] Arguments field : simpl never.

(** ** MPI programs

    A process is a finite tree of its MPI calls.  Every message of the kernel
    is one [MPI_DOUBLE] with tag [0] on the same communicator, so a message is
    its value, and it is matched by source and destination alone. *)

Inductive MPI_Request : Type := request (dest : Z).

Inductive mpi (A : Type) : Type :=
  | Ret (a : A)
  | Abort
  | Isend (v : double) (dest : Z) (k : mpi A)
  | Recv (source : Z) (k : double -> mpi A)
  | Wait (req : MPI_Request) (k : mpi A).
#[global] Arguments Ret {A} a.
#[global] Arguments Abort {A}.
#[global] Arguments Isend {A} v dest k.
#[global] Arguments Recv {A} source k.
#[global] Arguments Wait {A} req k.

Fixpoint mpi_bind {A B : Type} (f : A -> mpi B) (m : mpi A) : mpi B :=
  match m with
  | Ret a => f a
  | Abort => Abort
  | Isend v dest k => Isend v dest (mpi_bind f k)
  | Recv source k => Recv source (fun x => mpi_bind f (k x))
  | Wait req k => Wait req (mpi_bind f k)
  end.

#[global] Instance mpi_ret : MRet mpi := @Ret.
#[global] Instance mpi_mbind : MBind mpi := @mpi_bind.

(** Local code inside a process; an undefined access aborts it. *)
Definition lift {A : Type} (o : option A) : mpi A :=
  match o with
  | Some a => Ret a
  | None => Abort
  end.

(** [MPI_Isend(&v, 1, MPI_DOUBLE, dest, 0, comm, &req)].  The kernel does not
    write the staged value between the call and the matching [MPI_Wait], so
    the value sent is the one staged at the call. *)
Definition MPI_Isend (v : double) (dest : Z) : mpi MPI_Request :=
  Isend v dest (Ret (request dest)).

(** [MPI_Recv(&x, 1, MPI_DOUBLE, source, 0, comm, MPI_STATUS_IGNORE)]. *)
Definition MPI_Recv (source : Z) : mpi double := Recv source Ret.

(** [MPI_Wait(&req, MPI_STATUS_IGNORE)]. *)
Definition MPI_Wait (req : MPI_Request) : mpi unit := Wait req (Ret tt).

(** The time loop inside a process. *)
Fixpoint mpi_for_range {S : Type} (n : nat) (i : size_t)
    (body : size_t -> S -> mpi S) (s : S) : mpi S :=
  match n with
  | O => Ret s
  | S n' => s' ← body i s; mpi_for_range n' (size_add i 1) body s'
  end.

Definition mpi_for_loop {S : Type} (lo hi : size_t)
    (body : size_t -> S -> mpi S) (s : S) : mpi S :=
  mpi_for_range (N.to_nat (hi - lo)) lo body s.

(** [int] arithmetic: a result outside the range of [int], a zero divisor
    and [INT_MIN % -1] are undefined. *)
Definition INT_MAX : Z := 2 ^ 31 - 1.
Definition INT_MIN : Z := - 2 ^ 31.

Definition int_of (z : Z) : mpi Z :=
  if decide (INT_MIN <= z <= INT_MAX)%Z then Ret z else Abort.

Definition int_rem (a b : Z) : mpi Z :=
  if decide (b = 0 \/ (a = INT_MIN /\ b = -1))%Z then Abort else Ret (Z.rem a b).

(** The local variables a pass of the time loop of [heat_parallel] works on:
    the pointers [ukt] and [uktp1] and the arrays [left_ghost] and
    [right_ghost]. *)
Record locals : Type := Locals {
  l_ukt : list (option double);
  l_uktp1 : list (option double);
  l_left_ghost : list (option double);
  l_right_ghost : list (option double)
}.

(** One pass of the time loop of [heat_parallel]. *)
Definition heat_parallel_step (nu : double) (Nx : size_t)
    (left_proc right_proc : Z) (l : locals) : mpi locals :=
  let '(Locals ukt uktp1 left_ghost right_ghost) := l in
  x ← lift (load ukt 0%N);
  left_ghost ← lift (store left_ghost 0%N x);
  x ← lift (load ukt (size_sub Nx 1));
  right_ghost ← lift (store right_ghost 0%N x);
  v ← lift (load left_ghost 0%N);
  req_left ← MPI_Isend v left_proc;
  v ← lift (load right_ghost 0%N);
  req_right ← MPI_Isend v right_proc;
  uktp1 ← lift (for_loop 1%N (size_sub Nx 1)
    (fun i uktp1 =>
       a ← load ukt (size_sub i 1);
       b ← load ukt i;
       c ← load ukt (size_add i 1);
       store uktp1 i (forward_euler nu a b c))
    uktp1);
  x ← MPI_Recv right_proc;
  right_ghost ← lift (store right_ghost 1%N x);
  b ← lift (load ukt (size_sub Nx 1));
  a ← lift (load ukt (size_sub Nx 2));
  c ← lift (load right_ghost 1%N);
  uktp1 ← lift (store uktp1 (size_sub Nx 1) (forward_euler nu a b c));
  x ← MPI_Recv left_proc;
  left_ghost ← lift (store left_ghost 1%N x);
  b ← lift (load ukt 0%N);
  a ← lift (load left_ghost 1%N);
  c ← lift (load ukt 1%N);
  uktp1 ← lift (store uktp1 0%N (forward_euler nu a b c));
  let temp := ukt in
  let ukt := uktp1 in
  let uktp1 := temp in
  MPI_Wait req_left;;
  MPI_Wait req_right;;
  Ret (Locals ukt uktp1 left_ghost right_ghost).

(** [void heat_parallel(double* uk, double dx, size_t Nx, double dt,
    size_t Nt, MPI_Comm comm)] in the process that [MPI_Comm_rank] numbers
    [rank] among the [size] processes of [comm]; the result is the new
    content of [uk]. *)
Definition heat_parallel (uk : buf) (dx : double) (Nx : size_t) (dt : double)
    (Nt : size_t) (rank size : Z) : mpi buf :=
  let ukt := malloc (size_mul Nx sizeof_double) in
  let uktp1 := malloc (size_mul Nx sizeof_double) in
  ukt ← lift (array_copy ukt uk Nx);
  let nu := (dt / (dx * dx))%double in
  let left_ghost : buf := [None; None] in
  let right_ghost : buf := [None; None] in
  t ← int_of (rank - 1);
  t ← int_of (t + size);
  left_proc ← int_rem t size;
  t ← int_of (rank + 1);
  right_proc ← int_rem t size;
  '(Locals ukt uktp1 left_ghost right_ghost) ← mpi_for_loop 0%N Nt
    (fun _ => heat_parallel_step nu Nx left_proc right_proc)
    (Locals ukt uktp1 left_ghost right_ghost);
  lift (array_copy uk ukt Nx).

(** ** The processes of a communicator

    A network is the remaining program of every rank and, for every ordered
    pair of ranks, the messages sent and not yet received, oldest first (MPI
    does not let messages between two ranks overtake).  A posted send is
    buffered at once, so [MPI_Wait] on it never blocks. *)
Record network : Type := Network {
  procs : list (mpi (list (option double)));
  chans : nat -> nat -> list double
}.

Definition chan_set (ch : nat -> nat -> list double) (src dst : nat)
    (q : list double) : nat -> nat -> list double :=
  fun s d => if decide (s = src /\ d = dst) then q else ch s d.

Inductive net_step : network -> network -> Prop :=
  | step_isend ps ch r v dest k :
      ps !! r = Some (Isend v dest k) ->
      (0 <= dest < Z.of_nat (length ps))%Z ->
      net_step (Network ps ch)
        (Network (<[r := k]> ps)
           (chan_set ch r (Z.to_nat dest) (ch r (Z.to_nat dest) ++ [v])))
  | step_recv ps ch r source k v q :
      ps !! r = Some (Recv source k) ->
      (0 <= source < Z.of_nat (length ps))%Z ->
      ch (Z.to_nat source) r = v :: q ->
      net_step (Network ps ch)
        (Network (<[r := k v]> ps) (chan_set ch (Z.to_nat source) r q))
  | step_wait ps ch r req k :
      ps !! r = Some (Wait req k) ->
      net_step (Network ps ch) (Network (<[r := k]> ps) ch).

(** The slice of rank [r] in a global field cut into slices of [Nx] points. *)
Definition slice (Nx r : nat) (vs : list double) : list double :=
  take Nx (drop (r * Nx) vs).

(** [heat_parallel] started by each of the [P] ranks on its slice of [U]. *)
Definition heat_parallel_network (P Nx : nat) (U : list double)
    (dx dt : double) (Nt : size_t) : network :=
  Network
    ((fun r => heat_parallel (field (slice Nx r U)) dx (N.of_nat Nx) dt Nt
                 (Z.of_nat r) (Z.of_nat P)) <$> seq 0 P)
    (fun _ _ => []).

(** Every rank has returned, rank [r] with the buffer [results !! r]. *)
Definition returned (net : network) (results : list (list (option double))) : Prop :=
  procs net = Ret <$> results.

(** Every run from [net] makes at most [bound] calls, and wherever it is,
    either every rank has returned its buffer of [results] or some rank can
    make its next call: the run ends, and it ends with [results]. *)
Definition runs_to (net : network) (results : list (list (option double)))
    (bound : nat) : Prop :=
  forall n net',
    nsteps net_step n net net' ->
    n <= bound /\ (returned net' results \/ exists net'', net_step net' net'').

(** ** The run of the network, rank by rank

    What follows describes the configurations a run of the network goes
    through; the description is shown to be an invariant further down. *)

(** Programs that make the same calls and continue alike for every received
    value. *)
Inductive mpi_equiv {A : Type} : mpi A -> mpi A -> Prop :=
  | equiv_Ret a : mpi_equiv (Ret a) (Ret a)
  | equiv_Abort : mpi_equiv Abort Abort
  | equiv_Isend v dest k k' :
      mpi_equiv k k' -> mpi_equiv (Isend v dest k) (Isend v dest k')
  | equiv_Recv source k k' :
      (forall x, mpi_equiv (k x) (k' x)) ->
      mpi_equiv (Recv source k) (Recv source k')
  | equiv_Wait req k k' :
      mpi_equiv k k' -> mpi_equiv (Wait req k) (Wait req k').

(** The neighbours of rank [r] on the ring of [P] ranks. *)
Definition left_of (P r : nat) : nat := (r + P - 1) mod P.
Definition right_of (P r : nat) : nat := (r + 1) mod P.

(** [heat_parallel] from the head of its time loop, with [n] passes to go. *)
Definition heat_parallel_loop (nu : double) (Nx : size_t) (left_proc right_proc : Z)
    (uk : list (option double)) (n : nat) (i : size_t) (l : locals)
    : mpi (list (option double)) :=
  '(Locals ukt uktp1 left_ghost right_ghost) ←
    mpi_for_range n i (fun _ => heat_parallel_step nu Nx left_proc right_proc) l;
  lift (array_copy uk ukt Nx).

(** One Euler step of the slice [s] whose neighbours across its ends are the
    ghost values [y] (left) and [x] (right). *)
Definition local_euler (nu y : double) (s : list double) (x : double) : list double :=
  (fun i =>
     forward_euler nu
       (if decide (i = 0) then y else s !!! (i - 1))
       (s !!! i)
       (if decide (i + 1 = length s) then x else s !!! (i + 1)))
  <$> seq 0 (length s).

(** The local variables after a pass that started with the slice [s] in
    [ukt] and received [x] from the right and [y] from the left. *)
Definition next_locals (nu : double) (s : list double)
    (left_ghost right_ghost : list (option double)) (x y : double) : locals :=
  Locals (field (local_euler nu y s x)) (field s)
    (<[1 := Some y]> (<[0 := Some (s !!! 0)]> left_ghost))
    (<[1 := Some x]> (<[0 := Some (s !!! (length s - 1))]> right_ghost)).

(** The program of a rank inside a pass of the time loop, before each of its
    six calls: the two sends, the receive from the right, the receive from
    the left (after [x] came from the right) and the two waits (after [y]
    came from the left). *)
Definition phase_prog (nu : double) (Nx : size_t) (left_proc right_proc : Z)
    (uk : list (option double)) (n : nat) (i : size_t) (s : list double)
    (left_ghost right_ghost : list (option double)) (x y : double) (j : nat)
    : mpi (list (option double)) :=
  let ph5 x y :=
    Wait (request right_proc)
      (heat_parallel_loop nu Nx left_proc right_proc uk n (size_add i 1)
         (next_locals nu s left_ghost right_ghost x y)) in
  let ph4 x y := Wait (request left_proc) (ph5 x y) in
  let ph3 x := Recv left_proc (fun y => ph4 x y) in
  let ph2 := Recv right_proc (fun x => ph3 x) in
  let ph1 := Isend (s !!! (length s - 1)) right_proc ph2 in
  let ph0 := Isend (s !!! 0) left_proc ph1 in
  match j with
  | 0 => ph0
  | 1 => ph1
  | 2 => ph2
  | 3 => ph3 x
  | 4 => ph4 x y
  | _ => ph5 x y
  end.

(** The value of the loop counter [step] after [k] passes. *)
Definition step_index (k : nat) : size_t := Nat.iter k (fun i => size_add i 1) 0%N.

(** A position [(k, j)]: [k] passes done and [j] calls of the next one.
    [ticks] counts the calls made so far and [next_pos] is the position after
    one more call. *)
Definition ticks (p : nat * nat) : nat := 6 * p.1 + p.2.

Definition next_pos (p : nat * nat) : nat * nat :=
  if decide (p.2 = 5) then (S p.1, 0) else (p.1, S p.2).

Definition pos_set (pos : nat -> nat * nat) (r : nat) (p : nat * nat)
    : nat -> nat * nat :=
  fun x => if decide (x = r) then p else pos x.

(** How many messages rank [s] has sent to rank [d] when it is at position
    [p], and how many of them rank [d] has received when it is at [p]: in
    each pass a rank sends to its left neighbour first and receives from its
    right neighbour first. *)
Definition count_msgs (P s d k c : nat) : nat :=
  k * ((if decide (d = left_of P s) then 1 else 0)
       + (if decide (d = right_of P s) then 1 else 0))
  + (if decide (1 <= c /\ d = left_of P s) then 1 else 0)
  + (if decide (2 <= c /\ d = right_of P s) then 1 else 0).

Definition nsent (P s d : nat) (p : nat * nat) : nat :=
  count_msgs P s d p.1 (Nat.min p.2 2).

Definition nrcvd (P s d : nat) (p : nat * nat) : nat :=
  count_msgs P s d p.1 (Nat.min (p.2 - 2) 2).

Section Run.
Variables (P Nx : nat) (U : list double) (nu : double) (Nt : nat).

(** The global field after [k] steps and the two edges of the slice of rank
    [s] in it. *)
Definition global (k : nat) : list double := euler_steps nu k U.
Definition left_edge (k s : nat) : double := global k !!! (s * Nx).
Definition right_edge (k s : nat) : double := global k !!! (s * Nx + Nx - 1).

(** The [n]-th message that rank [s] sends to rank [d]. *)
Definition stream (s d n : nat) : double :=
  if decide (d = left_of P s) then
    if decide (d = right_of P s) then
      if Nat.even n then left_edge (n / 2) s else right_edge (n / 2) s
    else left_edge n s
  else right_edge n s.

(** The program of rank [r] at position [p]. *)
Definition proc_at (r : nat) (p : nat * nat) (prog : mpi (list (option double))) : Prop :=
  let '(k, j) := p in
  (k = Nt /\ j = 0 /\ prog = Ret (field (slice Nx r (global Nt)))) \/
  (k < Nt /\ j < 6 /\
   exists uktp1 left_ghost right_ghost : list (option double),
     length uktp1 = Nx /\ length left_ghost = 2 /\ length right_ghost = 2 /\
     mpi_equiv prog
       (phase_prog nu (N.of_nat Nx)
          (Z.of_nat (left_of P r)) (Z.of_nat (right_of P r))
          (field (slice Nx r U)) (Nt - S k) (step_index k)
          (slice Nx r (global k)) left_ghost right_ghost
          (left_edge k (right_of P r)) (right_edge k (left_of P r)) j)).

(** The channel from [s] to [d] holds the messages sent and not yet
    received, oldest first. *)
Definition chans_at (pos : nat -> nat * nat) (ch : nat -> nat -> list double) : Prop :=
  forall s d, s < P -> d < P ->
    nrcvd P s d (pos d) <= nsent P s d (pos s) /\
    ch s d =
      stream s d <$> seq (nrcvd P s d (pos d))
                         (nsent P s d (pos s) - nrcvd P s d (pos d)).

(** The network after [n] calls: every rank is at its position, and so are
    the channels. *)
Definition net_at (n : nat) (net : network) : Prop :=
  exists pos : nat -> nat * nat,
    length (procs net) = P /\
    (forall r, r < P -> exists prog, procs net !! r = Some prog /\ proc_at r (pos r) prog) /\
    chans_at pos (chans net) /\
    sum_list ((fun r => ticks (pos r)) <$> seq 0 P) = n.

End Run.

(** ** Size arithmetic without wrap-around *)

Lemma size_add_small (a b : N) : (a + b < SIZE_MOD)%N -> size_add a b = (a + b)%N.
Proof. intros H. unfold size_add. by apply N.mod_small. Qed.

Lemma size_sub_small (a b : N) :
  (b <= a)%N -> (a < SIZE_MOD)%N -> size_sub a b = (a - b)%N.
Proof.
  intros Hle Hlt. unfold size_sub.
  rewrite Z.mod_small by (unfold SIZE_MOD in *; lia). lia.
Qed.

Lemma size_mul_small (a b : N) : (a * b < SIZE_MOD)%N -> size_mul a b = (a * b)%N.
Proof. intros H. unfold size_mul. by apply N.mod_small. Qed.

Lemma addressable_lt Nx : addressable Nx -> (Nx < SIZE_MOD)%N.
Proof. unfold addressable, sizeof_double, SIZE_MOD. lia. Qed.

Lemma malloc_doubles Nx :
  addressable Nx -> malloc (size_mul Nx sizeof_double) = replicate (N.to_nat Nx) None.
Proof.
  intros H. unfold malloc. rewrite size_mul_small by done.
  by rewrite N.div_mul.
Qed.

(** ** Loads, stores and loops *)

Lemma load_field vs i : load (field vs) i = vs !! N.to_nat i.
Proof. unfold load, field. rewrite list_lookup_fmap. by destruct (vs !! _). Qed.

Lemma load_field_nat vs (i : nat) : load (field vs) (N.of_nat i) = vs !! i.
Proof. by rewrite load_field, Nat2N.id. Qed.

Lemma store_Some (b : buf) i x :
  N.to_nat i < length b -> store b i x = Some (<[N.to_nat i := Some x]> b).
Proof. intros H. unfold store. by rewrite decide_True. Qed.

(** A loop whose body stores [g i] at index [i], for every [i] of its range. *)
Lemma for_range_store (body : size_t -> buf -> option buf) (g : nat -> double) :
  forall (n : nat) (i0 : nat) (s : buf),
    i0 + n <= length s ->
    (N.of_nat (i0 + n) < SIZE_MOD)%N ->
    (forall j s, i0 <= j < i0 + n ->
       body (N.of_nat j) s = store s (N.of_nat j) (g j)) ->
    exists s',
      for_range n (N.of_nat i0) body s = Some s' /\
      length s' = length s /\
      forall j, s' !! j =
        if decide (i0 <= j < i0 + n) then Some (Some (g j)) else s !! j.
Proof.
  induction n as [|n IH]; intros i0 s Hlen Hmod Hbody.
  - exists s. split_and!; [done..|]. intros j. rewrite decide_False by lia. done.
  - cbn [for_range]. rewrite Hbody by lia.
    rewrite store_Some by (rewrite Nat2N.id; lia). cbn.
    rewrite size_add_small by lia.
    replace (N.of_nat i0 + 1)%N with (N.of_nat (S i0)) by lia.
    destruct (IH (S i0) (<[N.to_nat (N.of_nat i0) := Some (g i0)]> s))
      as (s' & Hrun & Hlen' & Hlook).
    + rewrite length_insert. lia.
    + lia.
    + intros j s0 Hj. apply Hbody. lia.
    + exists s'. split_and!; [done| by rewrite Hlen', length_insert |].
      intros j. rewrite Hlook, Nat2N.id.
      destruct (decide (j = i0)) as [->|Hne].
      * rewrite decide_False by lia. rewrite decide_True by lia.
        apply list_lookup_insert_eq. lia.
      * rewrite list_lookup_insert_ne by done.
        repeat case_decide; done || lia.
Qed.

Lemma for_loop_store (body : size_t -> buf -> option buf) (g : nat -> double)
    (lo hi : nat) (s : buf) :
  hi <= length s ->
  (N.of_nat hi < SIZE_MOD)%N ->
  (forall j s, lo <= j < hi ->
     body (N.of_nat j) s = store s (N.of_nat j) (g j)) ->
  exists s',
    for_loop (N.of_nat lo) (N.of_nat hi) body s = Some s' /\
    length s' = length s /\
    forall j, s' !! j =
      if decide (lo <= j < hi) then Some (Some (g j)) else s !! j.
Proof.
  intros Hlen Hmod Hbody. unfold for_loop.
  destruct (decide (lo <= hi)) as [Hle|Hgt].
  - replace (N.to_nat (N.of_nat hi - N.of_nat lo)) with (hi - lo) by lia.
    destruct (for_range_store body g (hi - lo) lo s) as (s' & Hrun & Hlen' & Hlook).
    + lia.
    + lia.
    + intros j s0 Hj. apply Hbody. lia.
    + exists s'. split_and!; [done..|]. intros j. rewrite Hlook.
      repeat case_decide; done || lia.
  - replace (N.to_nat (N.of_nat hi - N.of_nat lo)) with 0 by lia.
    exists s. split_and!; [done..|]. intros j. rewrite decide_False by lia. done.
Qed.

Lemma array_copy_field (to : buf) (vs : list double) :
  length to = length vs ->
  (N.of_nat (length vs) < SIZE_MOD)%N ->
  array_copy to (field vs) (N.of_nat (length vs)) = Some (field vs).
Proof.
  intros Hlen Hmod. unfold array_copy.
  destruct (for_loop_store
              (fun i toarray => x ← load (field vs) i; store toarray i x)
              (fun j => vs !!! j) 0 (length vs) to)
    as (s' & Hrun & Hlen' & Hlook); [lia|done| |].
  - intros j s Hj. rewrite load_field_nat.
    by rewrite (list_lookup_lookup_total_lt vs j) by lia.
  - change (N.of_nat 0) with 0%N in Hrun.
    rewrite Hrun. f_equal. apply list_eq. intros j.
    rewrite Hlook. unfold field. rewrite list_lookup_fmap.
    case_decide as Hj.
    + rewrite (list_lookup_lookup_total_lt vs j) by lia. done.
    + rewrite !lookup_ge_None_2; [done|lia|lia].
Qed.

Lemma length_euler_field nu vs : length (euler_field nu vs) = length vs.
Proof. unfold euler_field. by rewrite length_fmap, length_seq. Qed.

Lemma lookup_euler_field nu vs i :
  i < length vs -> euler_field nu vs !! i = Some (euler_at nu vs i).
Proof.
  intros Hi. unfold euler_field.
  by rewrite list_lookup_fmap, lookup_seq_lt.
Qed.

Lemma euler_at_interior nu vs i :
  1 <= i -> i + 1 < length vs ->
  euler_at nu vs i =
    forward_euler nu (vs !!! (i - 1)) (vs !!! i) (vs !!! (i + 1)).
Proof.
  intros H1 H2. unfold euler_at.
  replace (i + length vs - 1) with ((i - 1) + 1 * length vs) by lia.
  rewrite Nat.Div0.mod_add, !Nat.mod_small by lia. done.
Qed.

Lemma euler_at_first nu vs :
  2 <= length vs ->
  euler_at nu vs 0 =
    forward_euler nu (vs !!! (length vs - 1)) (vs !!! 0) (vs !!! 1).
Proof.
  intros H. unfold euler_at.
  rewrite !Nat.mod_small by lia. done.
Qed.

Lemma euler_at_last nu vs :
  2 <= length vs ->
  euler_at nu vs (length vs - 1) =
    forward_euler nu (vs !!! (length vs - 2)) (vs !!! (length vs - 1)) (vs !!! 0).
Proof.
  intros H. unfold euler_at.
  replace (length vs - 1 + length vs - 1) with ((length vs - 2) + 1 * length vs) by lia.
  replace (length vs - 1 + 1) with (0 + 1 * length vs) by lia.
  rewrite !Nat.Div0.mod_add, !Nat.mod_small by lia. done.
Qed.

(** One pass of the serial time loop computes [euler_field] into the scratch
    buffer, whatever it held, and exchanges the two pointers. *)
Lemma heat_serial_step_field nu (vs : list double) (utp1 : buf) :
  2 <= length vs ->
  (N.of_nat (length vs) < SIZE_MOD)%N ->
  length utp1 = length vs ->
  heat_serial_step nu (N.of_nat (length vs)) (field vs, utp1)
  = Some (field (euler_field nu vs), field vs).
Proof.
  intros Hn Hmod Hlen. unfold heat_serial_step.
  set (n := length vs) in *.
  assert (Hvs : forall j, j < n -> vs !! j = Some (vs !!! j)).
  { intros j Hj. by apply list_lookup_lookup_total_lt. }
  rewrite !size_sub_small by lia.
  replace (N.of_nat n - 1)%N with (N.of_nat (n - 1)) by lia.
  replace (N.of_nat n - 2)%N with (N.of_nat (n - 2)) by lia.
  change 1%N with (N.of_nat 1). change 0%N with (N.of_nat 0).
  edestruct (for_loop_store) with (g := euler_at nu vs) (lo := 1) (hi := n - 1)
    (s := utp1) as (s1 & -> & Hlen1 & Hlook1); [lia|lia| |].
  { intros j s Hj. cbn beta. change (N.of_nat 1) with 1%N.
    rewrite size_sub_small, size_add_small by lia.
    replace (N.of_nat j - 1)%N with (N.of_nat (j - 1)) by lia.
    replace (N.of_nat j + 1)%N with (N.of_nat (j + 1)) by lia.
    rewrite !load_field_nat, !Hvs by lia. cbn.
    by rewrite euler_at_interior by (fold n; lia). }
  cbn. rewrite !load_field_nat, !Hvs by lia. cbn.
  rewrite store_Some by (cbn; lia). cbn.
  rewrite store_Some by (rewrite length_insert, Nat2N.id; lia). cbn.
  f_equal. f_equal. apply list_eq. intros j.
  rewrite Nat2N.id. unfold field at 1. rewrite list_lookup_fmap.
  destruct (decide (j < n)) as [Hj|Hj].
  - rewrite lookup_euler_field by done. cbn.
    destruct (decide (j = n - 1)) as [->|Hne1].
    { rewrite list_lookup_insert_eq by (rewrite length_insert; lia).
      unfold n. by rewrite euler_at_last. }
    rewrite list_lookup_insert_ne by done.
    destruct (decide (j = 0)) as [->|Hne0].
    { rewrite list_lookup_insert_eq by lia. by rewrite euler_at_first. }
    rewrite list_lookup_insert_ne by done.
    rewrite Hlook1, decide_True by lia. done.
  - rewrite (lookup_ge_None_2 (euler_field nu vs)) by (rewrite length_euler_field; lia).
    cbn. apply lookup_ge_None_2. rewrite !length_insert. lia.
Qed.


Lemma length_euler_steps nu k vs : length (euler_steps nu k vs) = length vs.
Proof.
  induction k as [|k IH]; [done|].
  unfold euler_steps in *. cbn [Nat.iter nat_rect]. by rewrite length_euler_field.
Qed.

Lemma euler_steps_S nu k vs :
  euler_steps nu (S k) vs = euler_steps nu k (euler_field nu vs).
Proof. unfold euler_steps. apply Nat.iter_succ_r. Qed.

(** The time loop of [heat_serial]: [k] passes leave [k] Euler steps of the
    field in [ut]. *)
Lemma heat_serial_steps nu (k : nat) :
  forall (i0 : size_t) (vs : list double) (utp1 : buf),
    2 <= length vs ->
    (N.of_nat (length vs) < SIZE_MOD)%N ->
    length utp1 = length vs ->
    exists utp1',
      for_range k i0 (fun _ => heat_serial_step nu (N.of_nat (length vs)))
        (field vs, utp1)
      = Some (field (euler_steps nu k vs), utp1') /\
      length utp1' = length vs.
Proof.
  induction k as [|k IH]; intros i0 vs utp1 Hn Hmod Hlen.
  - exists utp1. done.
  - cbn [for_range]. rewrite heat_serial_step_field by done. cbn.
    destruct (IH (size_add i0 1) (euler_field nu vs) (field vs))
      as (utp1' & Hrun & Hlen'); rewrite ?length_euler_field; try done.
    { unfold field. by rewrite length_fmap. }
    rewrite length_euler_field in Hrun. rewrite Hrun.
    exists utp1'. rewrite euler_steps_S.
    by rewrite length_euler_field in Hlen'.
Qed.

(** [heat_serial] in closed form. *)
Lemma heat_serial_field (vs : list double) (dx dt : double) (Nt : size_t) :
  addressable (N.of_nat (length vs)) ->
  Nt = 0%N \/ 2 <= length vs ->
  heat_serial (field vs) dx (N.of_nat (length vs)) dt Nt
  = Some (field (euler_steps (dt / (dx * dx)) (N.to_nat Nt) vs)).
Proof.
  intros Haddr Hcase. pose proof (addressable_lt _ Haddr) as Hmod.
  unfold heat_serial. rewrite malloc_doubles by done. rewrite Nat2N.id.
  rewrite array_copy_field by (by rewrite ?length_replicate). cbn.
  unfold for_loop. rewrite N.sub_0_r.
  destruct Hcase as [->|Hn].
  - cbn. apply array_copy_field; [|done]. unfold field. by rewrite length_fmap.
  - destruct (heat_serial_steps (dt / (dx * dx)) (N.to_nat Nt) 0%N vs
                (replicate (length vs) None))
      as (utp1' & -> & Hlen'); [done|done|by rewrite length_replicate|].
    cbn. rewrite <- (length_euler_steps (dt / (dx * dx)) (N.to_nat Nt) vs) at 1.
    apply array_copy_field.
    + unfold field. by rewrite length_fmap, length_euler_steps.
    + by rewrite length_euler_steps.
Qed.

(** ** Binary64 facts: doubling a double and cancelling it *)

Section Binary64.
Local Open Scope Z_scope.

Lemma bounded_cases m e :
  bounded prec emax m e = true ->
  e <= 971 /\
  ((Zpos (digits2_pos m) = 53 /\ -1074 <= e) \/
   (Zpos (digits2_pos m) < 53 /\ e = -1074)).
Proof.
  unfold bounded, canonical_mantissa, fexp, emin, prec, emax.
  intros [H1 H2]%andb_prop. lia.
Qed.

Lemma digits2_pos_shift m : 
  Zpos (digits2_pos (Pos.iter xO m 52)) = Zpos (digits2_pos m) + 52.
Proof. cbn. lia. Qed.

Lemma shr_52 m :
  SpecFloat.iter_pos shr_1 52 (shr_record_of_loc (Zpos (Pos.iter xO m 52)) loc_Exact)
  = Build_shr_record (Zpos m) false false.
Proof. reflexivity. Qed.

Lemma shr_51 m :
  SpecFloat.iter_pos shr_1 51 (shr_record_of_loc (Zpos (Pos.iter xO m 52)) loc_Exact)
  = Build_shr_record (Zpos m~0) false false.
Proof. reflexivity. Qed.

Lemma dmul_two_finite s m e :
  bounded prec emax m e = true ->
  (of_int 2 * S754_finite s m e)%double =
    if Zpos (digits2_pos m) =? 53
    then (if e + 1 <=? 971 then S754_finite s m (e + 1) else S754_infinity s)
    else S754_finite s m~0 e.
Proof.
  intros Hb. destruct (bounded_cases m e Hb) as [He Hcase].
  change (of_int 2) with (S754_finite false 4503599627370496 (-51)).
  unfold dmul, SFmul.
  change (4503599627370496 * m)%positive with (Pos.iter xO m 52).
  change (xorb false s) with s.
  unfold binary_round_aux, shr_fexp. unfold Zdigits2 at 1.
  rewrite digits2_pos_shift.
  destruct Hcase as [[Hd Hlo]|[Hd ->]].
  - replace (fexp prec emax (Z.pos (digits2_pos m) + 52 + (-51 + e)) - (-51 + e))
      with 52 by (unfold fexp, emin, prec, emax; lia).
    unfold shr at 1. rewrite shr_52.
    cbn [shr_m loc_of_shr_record round_nearest_even Zdigits2 shr_record_of_loc].
    replace (fexp prec emax (Z.pos (digits2_pos m) + (-51 + e + 52)) - (-51 + e + 52))
      with 0 by (unfold fexp, emin, prec, emax; lia).
    cbn [shr shr_m]. rewrite Hd. cbn [Z.eqb Pos.eqb].
    replace (-51 + e + 52) with (e + 1) by lia. done.
  - replace (fexp prec emax (Z.pos (digits2_pos m) + 52 + (-51 + -1074)) - (-51 + -1074))
      with 51 by (unfold fexp, emin, prec, emax; lia).
    unfold shr at 1. rewrite shr_51.
    cbn [shr_m loc_of_shr_record round_nearest_even Zdigits2 shr_record_of_loc digits2_pos].
    replace (fexp prec emax (Z.pos (Pos.succ (digits2_pos m)) + (-51 + -1074 + 51))
             - (-51 + -1074 + 51))
      with 0 by (unfold fexp, emin, prec, emax; lia).
    cbn [shr shr_m].
    destruct (Z.eqb_spec (Z.pos (digits2_pos m)) 53) as [?|_]; [lia|].
    done.
Qed.

Lemma bounded_canonical m e :
  bounded prec emax m e = true ->
  fexp prec emax (Z.pos (digits2_pos m) + e) = e /\ e <= emax - prec.
Proof.
  unfold bounded, canonical_mantissa. intros [H1 H2]%andb_prop. lia.
Qed.

Lemma binary_round_bounded s m e :
  bounded prec emax m e = true ->
  binary_round prec emax s m e = S754_finite s m e.
Proof.
  intros [Hc He]%bounded_canonical.
  unfold binary_round, shl_align. rewrite Hc, Z.sub_diag.
  unfold binary_round_aux, shr_fexp. cbn [Zdigits2].
  rewrite Hc, Z.sub_diag.
  cbn [shr shr_record_of_loc shr_m loc_of_shr_record round_nearest_even Zdigits2].
  rewrite Hc, Z.sub_diag. cbn [shr shr_m].
  destruct (Z.leb_spec e (emax - prec)); [done|lia].
Qed.

Lemma dsub_double s m e :
  bounded prec emax m e = true ->
  is_finite (of_int 2 * S754_finite s m e)%double = true ->
  (S754_finite s m e - of_int 2 * S754_finite s m e)%double
  = S754_finite (negb s) m e.
Proof.
  intros Hb. rewrite dmul_two_finite by done.
  destruct (Z.eqb_spec (Z.pos (digits2_pos m)) 53) as [Hd|Hd].
  - destruct (Z.leb_spec (e + 1) 971) as [He|He]; [intros _|done].
    unfold dsub, SFsub, shl_align.
    rewrite Z.min_l by lia. rewrite Z.sub_diag.
    replace (e - (e + 1)) with (Z.neg 1) by lia.
    cbn [fst Pos.iter].
    replace (cond_Zopp s (Z.pos m) - cond_Zopp s (Z.pos m~0))
      with (cond_Zopp (negb s) (Z.pos m)) by (destruct s; cbn [cond_Zopp negb]; lia).
    destruct s; cbn [negb cond_Zopp Z.opp binary_normalize];
      by apply binary_round_bounded.
  - intros _. unfold dsub, SFsub, shl_align.
    rewrite Z.min_id, Z.sub_diag. cbn [fst].
    replace (cond_Zopp s (Z.pos m) - cond_Zopp s (Z.pos m~0))
      with (cond_Zopp (negb s) (Z.pos m)) by (destruct s; cbn [cond_Zopp negb]; lia).
    destruct s; cbn [negb cond_Zopp Z.opp binary_normalize];
      by apply binary_round_bounded.
Qed.

Lemma dadd_opp s m e :
  (S754_finite (negb s) m e + S754_finite s m e)%double = S754_zero false.
Proof.
  unfold dadd, SFadd, shl_align. rewrite Z.min_id, Z.sub_diag. cbn [fst].
  replace (cond_Zopp (negb s) (Z.pos m) + cond_Zopp s (Z.pos m))
    with 0 by (destruct s; cbn [cond_Zopp negb]; lia).
  done.
Qed.

End Binary64.

(** A constant is a fixed point of the update when doubling it does not
    overflow and the coefficient is finite; negative zero is not one, it
    becomes positive zero. *)
Lemma forward_euler_constant (nu c : double) :
  is_finite nu = true ->
  valid_binary prec emax c = true ->
  is_neg_zero c = false ->
  is_finite (of_int 2 * c)%double = true ->
  forward_euler nu c c c = c.
Proof.
  intros Hnu Hv Hz H2. unfold forward_euler.
  destruct c as [[|]| | |s m e]; try done.
  - change ((S754_zero false - of_int 2 * S754_zero false + S754_zero false)%double)
      with (S754_zero false).
    by destruct nu as [[|]| | |[|] ? ?].
  - cbn [valid_binary] in Hv.
    rewrite dsub_double, dadd_opp by done.
    by destruct nu as [[|]| | |[|] ? ?].
Qed.

Lemma euler_field_constant (nu c : double) (n : nat) :
  forward_euler nu c c c = c ->
  euler_field nu (replicate n c) = replicate n c.
Proof.
  intros Hfix. apply list_eq. intros i.
  destruct (decide (i < n)) as [Hi|Hi].
  - rewrite lookup_euler_field by (by rewrite length_replicate).
    rewrite lookup_replicate_2 by done. f_equal.
    unfold euler_at. rewrite length_replicate.
    rewrite !lookup_total_replicate_2; [done|..]; try done;
      apply Nat.mod_upper_bound; lia.
  - rewrite !lookup_ge_None_2; [done|..].
    + rewrite length_replicate. lia.
    + rewrite length_euler_field, length_replicate. lia.
Qed.

Lemma euler_steps_constant (nu c : double) (n k : nat) :
  forward_euler nu c c c = c ->
  euler_steps nu k (replicate n c) = replicate n c.
Proof.
  intros Hfix. induction k as [|k IH]; [done|].
  by rewrite euler_steps_S, euler_field_constant.
Qed.

(** ** The serial kernel *)

(** C2.  One Euler step of [heat_serial] on a buffer of [Nx >= 2] points, with
    [nu = dt/dx^2]: the pass of the time loop fills the scratch buffer with
    [next], where [next[i] = current[i] + nu*(current[i-1] - 2*current[i] +
    current[i+1])] at every interior index, [next[0]] and [next[Nx-1]] take
    their missing neighbour from the other end of [current]; [next] is the
    same for every content of the scratch buffer, [current] is left as it was,
    and [heat_serial] with [Nt = 1] returns [next]. *)
Theorem heat_serial_single_step (dx dt : double) (current : list double) (Nx : size_t) :
  Nx = N.of_nat (length current) ->
  (2 <= Nx)%N ->
  addressable Nx ->
  let nu := (dt / (dx * dx))%double in
  let cur i := current !!! i in
  exists next : list double,
    length next = length current /\
    (forall scratch : list (option double),
        length scratch = length current ->
        heat_serial_step nu Nx (field current, scratch)
        = Some (field next, field current)) /\
    heat_serial (field current) dx Nx dt 1 = Some (field next) /\
    (forall i, 1 <= i <= length current - 2 ->
        next !! i =
          Some (cur i + nu * (cur (i - 1)%nat - of_int 2 * cur i + cur (i + 1)%nat))%double) /\
    next !! 0 =
      Some (cur 0 + nu * (cur (length current - 1)%nat - of_int 2 * cur 0 + cur 1))%double /\
    next !! (length current - 1) =
      Some (cur (length current - 1)%nat
            + nu * (cur (length current - 2)%nat
                    - of_int 2 * cur (length current - 1)%nat + cur 0))%double.
Proof.
  intros -> Hn Haddr nu cur. pose proof (addressable_lt _ Haddr) as Hmod.
  assert (Hn' : 2 <= length current) by lia.
  exists (euler_field nu current). split_and!.
  - apply length_euler_field.
  - intros scratch Hlen. by apply heat_serial_step_field.
  - rewrite heat_serial_field by auto. done.
  - intros i Hi. rewrite lookup_euler_field by lia.
    rewrite euler_at_interior by lia. done.
  - rewrite lookup_euler_field by lia. by rewrite euler_at_first.
  - rewrite lookup_euler_field by lia. by rewrite euler_at_last.
Qed.

Lemma heat_serial_single_step_witness :
  let current := [of_int 1; of_int 0; of_int 0; of_int 0] in
  4%N = N.of_nat (length current) /\ (2 <= 4)%N /\ addressable 4 /\
  exists next : list double,
    heat_serial (field current) (of_int 1) 4 (dyadic 1 (-2)) 1 = Some (field next) /\
    next !! 0 = Some (dyadic 1 (-1)) /\
    next !! 1 = Some (dyadic 1 (-2)) /\
    next !! 2 = Some (of_int 0) /\
    next !! 3 = Some (dyadic 1 (-2)).
Proof.
  intros current.
  assert (H1 : 4%N = N.of_nat (length current)) by reflexivity.
  assert (H2 : (2 <= 4)%N) by lia.
  assert (H3 : addressable 4) by reflexivity.
  split_and!; [done..|].
  destruct (heat_serial_single_step (of_int 1) (dyadic 1 (-2)) current 4 H1 H2 H3)
    as (next & _ & _ & Hrun & Hmid & Hfirst & Hlast).
  exists next. split_and!.
  - exact Hrun.
  - rewrite Hfirst. vm_compute. reflexivity.
  - rewrite (Hmid 1) by (cbn; lia). vm_compute. reflexivity.
  - rewrite (Hmid 2) by (cbn; lia). vm_compute. reflexivity.
  - etrans; [exact Hlast|]. vm_compute. reflexivity.
Defined.

(** C5.  With [dx = 1] and [dt = 0.25], so that [nu = 0.25], the field
    [0, 0, 1, 0, 0] becomes [0, 0.25, 0.5, 0.25, 0] after one step and
    [0.0625, 0.25, 0.375, 0.25, 0.0625] after two; the doubles are written
    [m * 2^e] with [dyadic m e]. *)
Theorem heat_serial_hot_cell :
  let u := field [of_int 0; of_int 0; of_int 1; of_int 0; of_int 0] in
  let dx := of_int 1 in
  let dt := dyadic 1 (-2) in
  (dt / (dx * dx))%double = dyadic 1 (-2) /\
  heat_serial u dx 5 dt 1
  = Some (field [of_int 0; dyadic 1 (-2); dyadic 1 (-1); dyadic 1 (-2); of_int 0]) /\
  heat_serial u dx 5 dt 2
  = Some (field [dyadic 1 (-4); dyadic 1 (-2); dyadic 3 (-3); dyadic 1 (-2);
                 dyadic 1 (-4)]).
Proof. vm_compute. done. Qed.

(** C4, as the code has it.  A field that holds the same finite constant [c]
    everywhere is left as it is by any number of steps, when doubling [c] does
    not overflow, [c] is not negative zero and [nu = dt/dx^2] is finite. *)
Theorem heat_serial_constant (c dx dt : double) (Nx Nt : size_t) :
  (2 <= Nx)%N ->
  addressable Nx ->
  valid_binary prec emax c = true ->
  is_neg_zero c = false ->
  is_finite (of_int 2 * c)%double = true ->
  is_finite (dt / (dx * dx))%double = true ->
  heat_serial (field (replicate (N.to_nat Nx) c)) dx Nx dt Nt
  = Some (field (replicate (N.to_nat Nx) c)).
Proof.
  intros Hn Haddr Hv Hz H2 Hnu.
  pose proof (heat_serial_field (replicate (N.to_nat Nx) c) dx dt Nt) as Hrun.
  rewrite length_replicate, N2Nat.id in Hrun.
  rewrite Hrun; [|done|right; lia].
  by rewrite euler_steps_constant by (by apply forward_euler_constant).
Qed.

Lemma heat_serial_constant_witness :
  let c := of_int 3 in
  let dx := of_int 1 in
  let dt := dyadic 1 (-2) in
  (2 <= 8)%N /\ addressable 8 /\
  valid_binary prec emax c = true /\
  is_neg_zero c = false /\
  is_finite (of_int 2 * c)%double = true /\
  is_finite (dt / (dx * dx))%double = true /\
  heat_serial (field (replicate 8 c)) dx 8 dt 100 = Some (field (replicate 8 c)).
Proof.
  intros c dx dt.
  assert (H1 : (2 <= 8)%N) by lia.
  assert (H2 : addressable 8) by reflexivity.
  assert (H3 : valid_binary prec emax c = true) by reflexivity.
  assert (H4 : is_neg_zero c = false) by reflexivity.
  assert (H5 : is_finite (of_int 2 * c)%double = true) by reflexivity.
  assert (H6 : is_finite (dt / (dx * dx))%double = true) by reflexivity.
  split_and!; [done..|].
  exact (heat_serial_constant c dx dt 8 100 H1 H2 H3 H4 H5 H6).
Defined.

(** C4 fails as stated.  The constant field [DBL_MAX, DBL_MAX] becomes
    [-inf, -inf] in one step with [nu = 0.25], because [2*DBL_MAX] overflows;
    the constant field [1, 1] becomes [NaN, NaN] with [dx = 2^-600], for
    which [dx*dx] underflows to zero and [nu] is infinite; and the constant
    field [-0, -0] becomes [+0, +0]. *)
Lemma heat_serial_constant_not_steady :
  heat_serial (field [DBL_MAX; DBL_MAX]) (of_int 1) 2 (dyadic 1 (-2)) 1
  = Some (field [S754_infinity true; S754_infinity true]) /\
  heat_serial (field [DBL_MAX; DBL_MAX]) (of_int 1) 2 (dyadic 1 (-2)) 1
  <> Some (field [DBL_MAX; DBL_MAX]) /\
  heat_serial (field [of_int 1; of_int 1]) (dyadic 1 (-600)) 2 (dyadic 1 (-2)) 1
  = Some (field [S754_nan; S754_nan]) /\
  heat_serial (field [S754_zero true; S754_zero true]) (of_int 1) 2 (dyadic 1 (-2)) 1
  = Some (field [S754_zero false; S754_zero false]).
Proof. vm_compute. done. Qed.

(** ** Programs of a process *)

Lemma mpi_equiv_refl {A : Type} (p : mpi A) : mpi_equiv p p.
Proof. induction p; constructor; auto. Qed.

Lemma mpi_equiv_trans {A : Type} (p q r : mpi A) :
  mpi_equiv p q -> mpi_equiv q r -> mpi_equiv p r.
Proof.
  intros Hpq. revert r.
  induction Hpq; intros r Hqr; inversion Hqr; subst; constructor; auto.
Qed.

Lemma mpi_bind_equiv {A B : Type} (f f' : A -> mpi B) (m m' : mpi A) :
  mpi_equiv m m' ->
  (forall a, mpi_equiv (f a) (f' a)) ->
  mpi_equiv (mpi_bind f m) (mpi_bind f' m').
Proof.
  intros Hm Hf. induction Hm; cbn [mpi_bind]; try constructor; auto.
Qed.

Lemma mpi_equiv_Isend_inv {A : Type} v dest (k q : mpi A) :
  mpi_equiv (Isend v dest k) q ->
  match q with
  | Isend v' dest' k' => v = v' /\ dest = dest' /\ mpi_equiv k k'
  | _ => False
  end.
Proof. inversion 1; subst; auto. Qed.

Lemma mpi_equiv_Recv_inv {A : Type} source (k : double -> mpi A) (q : mpi A) :
  mpi_equiv (Recv source k) q ->
  match q with
  | Recv source' k' => source = source' /\ forall x, mpi_equiv (k x) (k' x)
  | _ => False
  end.
Proof. inversion 1; subst; auto. Qed.

Lemma mpi_equiv_Wait_inv {A : Type} req (k q : mpi A) :
  mpi_equiv (Wait req k) q ->
  match q with
  | Wait req' k' => req = req' /\ mpi_equiv k k'
  | _ => False
  end.
Proof. inversion 1; subst; auto. Qed.

Lemma mpi_equiv_inv_r {A : Type} (p q : mpi A) :
  mpi_equiv p q ->
  match q with
  | Ret a => p = Ret a
  | Abort => p = Abort
  | Isend v dest k' => exists k, p = Isend v dest k /\ mpi_equiv k k'
  | Recv source k' =>
      exists k, p = Recv source k /\ forall x, mpi_equiv (k x) (k' x)
  | Wait req k' => exists k, p = Wait req k /\ mpi_equiv k k'
  end.
Proof. destruct 1; eauto. Qed.

Lemma mpi_equiv_Ret_inv {A : Type} (p : mpi A) (a : A) :
  mpi_equiv p (Ret a) -> p = Ret a.
Proof. by inversion 1. Qed.

Lemma mpi_equiv_Ret_inv_l {A : Type} (a : A) (q : mpi A) :
  mpi_equiv (Ret a) q -> match q with Ret b => a = b | _ => False end.
Proof. by inversion 1. Qed.

Ltac mpi_run :=
  cbn [mbind mpi_mbind mpi_bind lift MPI_Isend MPI_Recv MPI_Wait].

Lemma load_buf (b : list (option double)) (i : nat) (x : double) :
  b !! i = Some (Some x) -> load b (N.of_nat i) = Some x.
Proof. intros H. unfold load. by rewrite Nat2N.id, H. Qed.

Lemma lookup_local_euler nu y s x i :
  i < length s ->
  local_euler nu y s x !! i =
    Some (forward_euler nu
            (if decide (i = 0) then y else s !!! (i - 1))
            (s !!! i)
            (if decide (i + 1 = length s) then x else s !!! (i + 1))).
Proof.
  intros Hi. unfold local_euler.
  by rewrite list_lookup_fmap, lookup_seq_lt.
Qed.

Lemma length_local_euler nu y s x : length (local_euler nu y s x) = length s.
Proof. unfold local_euler. by rewrite length_fmap, length_seq. Qed.

(** One pass of the time loop of [heat_parallel], call by call. *)
Lemma heat_parallel_step_calls nu (s : list double) (left_proc right_proc : Z)
    (uktp1 left_ghost right_ghost : list (option double)) :
  2 <= length s ->
  (N.of_nat (length s) < SIZE_MOD)%N ->
  length uktp1 = length s ->
  length left_ghost = 2 ->
  length right_ghost = 2 ->
  mpi_equiv
    (heat_parallel_step nu (N.of_nat (length s)) left_proc right_proc
       (Locals (field s) uktp1 left_ghost right_ghost))
    (Isend (s !!! 0) left_proc
       (Isend (s !!! (length s - 1)) right_proc
          (Recv right_proc (fun x =>
             Recv left_proc (fun y =>
               Wait (request left_proc)
                 (Wait (request right_proc)
                    (Ret (next_locals nu s left_ghost right_ghost x y)))))))).
Proof.
  intros Hn Hmod Hlen Hlg Hrg. unfold heat_parallel_step.
  set (n := length s) in *.
  assert (Hs : forall j, j < n -> s !! j = Some (s !!! j)).
  { intros j Hj. by apply list_lookup_lookup_total_lt. }
  assert (Hload : forall j, j < n -> load (field s) (N.of_nat j) = Some (s !!! j)).
  { intros j Hj. by rewrite load_field_nat, Hs. }
  rewrite !size_sub_small by lia.
  replace (N.of_nat n - 1)%N with (N.of_nat (n - 1)) by lia.
  replace (N.of_nat n - 2)%N with (N.of_nat (n - 2)) by lia.
  destruct (for_loop_store
              (fun i uktp1 =>
                 a ← load (field s) (size_sub i 1);
                 b ← load (field s) i;
                 c ← load (field s) (size_add i 1);
                 store uktp1 i (forward_euler nu a b c))
              (fun j => forward_euler nu (s !!! (j - 1)) (s !!! j) (s !!! (j + 1)))
              1 (n - 1) uktp1)
    as (s1 & Hrun & Hlen1 & Hlook1); [lia|lia| |].
  { intros j b Hj. cbn beta.
    rewrite size_sub_small, size_add_small by lia.
    replace (N.of_nat j - 1)%N with (N.of_nat (j - 1)) by lia.
    replace (N.of_nat j + 1)%N with (N.of_nat (j + 1)) by lia.
    by rewrite !Hload by lia. }
  change 1%N with (N.of_nat 1) in *. change 0%N with (N.of_nat 0).
  rewrite Hrun. clear Hrun.
  rewrite !Hload by lia.
  mpi_run.
  rewrite (store_Some left_ghost) by (rewrite Nat2N.id; lia). mpi_run.
  rewrite (store_Some right_ghost) by (rewrite Nat2N.id; lia). mpi_run.
  rewrite !Nat2N.id.
  rewrite (load_buf (<[0 := Some (s !!! 0)]> left_ghost) 0 (s !!! 0))
    by (apply list_lookup_insert_eq; lia).
  mpi_run.
  rewrite (load_buf (<[0 := Some (s !!! (n - 1))]> right_ghost) 0 (s !!! (n - 1)))
    by (apply list_lookup_insert_eq; lia).
  mpi_run.
  do 2 constructor. constructor. intros x.
  rewrite store_Some by (rewrite length_insert, Nat2N.id; lia). mpi_run.
  rewrite Nat2N.id.
  rewrite (load_buf _ 1 x) by (apply list_lookup_insert_eq; rewrite length_insert; lia).
  mpi_run.
  rewrite store_Some by (rewrite Nat2N.id; lia). mpi_run.
  rewrite Nat2N.id.
  constructor. intros y.
  rewrite store_Some by (rewrite length_insert, Nat2N.id; lia). mpi_run.
  rewrite Nat2N.id.
  rewrite (load_buf _ 1 y) by (apply list_lookup_insert_eq; rewrite length_insert; lia).
  mpi_run.
  rewrite store_Some by (rewrite length_insert, Nat2N.id; lia). mpi_run.
  rewrite Nat2N.id.
  do 2 constructor.
  unfold next_locals. fold n.
  replace (<[0:=Some (forward_euler nu y (s !!! 0) (s !!! 1))]>
             (<[n - 1:=Some (forward_euler nu (s !!! (n - 2)) (s !!! (n - 1)) x)]> s1))
    with (field (local_euler nu y s x)); [apply mpi_equiv_refl|].
  apply list_eq. intros j.
  unfold field at 1. rewrite list_lookup_fmap.
  destruct (decide (j < n)) as [Hj|Hj].
  - rewrite lookup_local_euler by done. cbn [fmap option_fmap option_map]. fold n.
    destruct (decide (j = 0)) as [->|Hne0].
    { rewrite list_lookup_insert_eq by (rewrite length_insert; lia).
      rewrite decide_False by lia. done. }
    rewrite list_lookup_insert_ne by done.
    destruct (decide (j = n - 1)) as [->|Hne1].
    { rewrite list_lookup_insert_eq by lia.
      rewrite decide_True by lia.
      replace (n - 1 - 1) with (n - 2) by lia. done. }
    rewrite list_lookup_insert_ne by done.
    rewrite (decide_False (P := j + 1 = n)) by lia.
    rewrite Hlook1, decide_True by lia. done.
  - rewrite (lookup_ge_None_2 (local_euler nu y s x))
      by (rewrite length_local_euler; lia).
    symmetry. apply lookup_ge_None_2. rewrite !length_insert. lia.
Qed.

Lemma int_of_range (z : Z) : (INT_MIN <= z <= INT_MAX)%Z -> int_of z = Ret z.
Proof. intros H. unfold int_of. by rewrite decide_True. Qed.

Lemma int_rem_pos (a b : Z) :
  (0 <= a)%Z -> (0 < b)%Z -> int_rem a b = Ret (a mod b)%Z.
Proof.
  intros Ha Hb. unfold int_rem.
  rewrite decide_False by (unfold INT_MIN; lia).
  by rewrite Z.rem_mod_nonneg by lia.
Qed.

Lemma left_of_int (P r : nat) :
  r < P -> ((Z.of_nat r - 1 + Z.of_nat P) mod Z.of_nat P)%Z = Z.of_nat (left_of P r).
Proof.
  intros Hr. unfold left_of. rewrite Nat2Z.inj_mod. f_equal. lia.
Qed.

Lemma right_of_int (P r : nat) :
  r < P -> ((Z.of_nat r + 1) mod Z.of_nat P)%Z = Z.of_nat (right_of P r).
Proof.
  intros Hr. unfold right_of. rewrite Nat2Z.inj_mod. f_equal. lia.
Qed.

(** [heat_parallel] up to the head of its time loop. *)
Lemma heat_parallel_start (vs : list double) (dx dt : double) (Nx : nat)
    (Nt : size_t) (P r : nat) :
  length vs = Nx ->
  addressable (N.of_nat Nx) ->
  r < P ->
  (Z.of_nat P <= 2 ^ 30)%Z ->
  heat_parallel (field vs) dx (N.of_nat Nx) dt Nt (Z.of_nat r) (Z.of_nat P)
  = heat_parallel_loop (dt / (dx * dx)) (N.of_nat Nx)
      (Z.of_nat (left_of P r)) (Z.of_nat (right_of P r)) (field vs)
      (N.to_nat Nt) 0%N
      (Locals (field vs) (replicate Nx None) [None; None] [None; None]).
Proof.
  intros <- Haddr Hr HP. pose proof (addressable_lt _ Haddr) as Hmod.
  unfold heat_parallel. rewrite malloc_doubles by done. rewrite Nat2N.id.
  rewrite array_copy_field by (by rewrite ?length_replicate). mpi_run.
  rewrite int_of_range by (unfold INT_MIN, INT_MAX; lia). mpi_run.
  rewrite int_of_range by (unfold INT_MIN, INT_MAX; lia). mpi_run.
  rewrite int_rem_pos by lia. mpi_run.
  rewrite int_of_range by (unfold INT_MIN, INT_MAX; lia). mpi_run.
  rewrite int_rem_pos by lia. mpi_run.
  rewrite left_of_int, right_of_int by done.
  unfold mpi_for_loop. rewrite N.sub_0_r. done.
Qed.

(** At the head of the time loop with no pass to go, the slice is returned. *)
Lemma heat_parallel_loop_done nu (Nx : nat) left_proc right_proc (vs s : list double) i
    (uktp1 left_ghost right_ghost : list (option double)) :
  length vs = Nx ->
  length s = Nx ->
  (N.of_nat Nx < SIZE_MOD)%N ->
  heat_parallel_loop nu (N.of_nat Nx) left_proc right_proc (field vs) 0 i
    (Locals (field s) uktp1 left_ghost right_ghost)
  = Ret (field s).
Proof.
  intros Hlen <- Hmod. unfold heat_parallel_loop. cbn [mpi_for_range]. mpi_run.
  rewrite array_copy_field; [done| |done].
  unfold field. by rewrite length_fmap.
Qed.

(** At the head of the time loop with a pass to go, the rank is before its
    first send. *)
Lemma heat_parallel_loop_pass nu (Nx : nat) left_proc right_proc uk (s : list double)
    n i (uktp1 left_ghost right_ghost : list (option double)) (x y : double) :
  length s = Nx ->
  2 <= Nx ->
  (N.of_nat Nx < SIZE_MOD)%N ->
  length uktp1 = Nx ->
  length left_ghost = 2 ->
  length right_ghost = 2 ->
  mpi_equiv
    (heat_parallel_loop nu (N.of_nat Nx) left_proc right_proc uk (S n) i
       (Locals (field s) uktp1 left_ghost right_ghost))
    (phase_prog nu (N.of_nat Nx) left_proc right_proc uk n i s
       left_ghost right_ghost x y 0).
Proof.
  intros <- Hn Hmod Hlen Hlg Hrg.
  unfold heat_parallel_loop at 1. cbn [mpi_for_range]. cbn [mbind mpi_mbind].
  eapply mpi_equiv_trans.
  { apply mpi_bind_equiv; [|intros a; apply mpi_equiv_refl].
    apply mpi_bind_equiv; [|intros a; apply mpi_equiv_refl].
    by apply heat_parallel_step_calls. }
  cbn [mpi_bind]. apply mpi_equiv_refl.
Qed.

(** ** The ring and the slices *)

Lemma mod_wrap_pred (n j : nat) :
  j < n -> (j + n - 1) mod n = if decide (j = 0) then n - 1 else j - 1.
Proof.
  intros Hj. case_decide as H0.
  - subst. apply Nat.mod_small. lia.
  - replace (j + n - 1) with ((j - 1) + 1 * n) by lia.
    rewrite Nat.Div0.mod_add. apply Nat.mod_small. lia.
Qed.

Lemma mod_wrap_succ (n j : nat) :
  j < n -> (j + 1) mod n = if decide (j + 1 = n) then 0 else j + 1.
Proof.
  intros Hj. case_decide as H0.
  - rewrite H0. apply Nat.Div0.mod_same.
  - apply Nat.mod_small. lia.
Qed.

Lemma left_of_lt (P r : nat) : r < P -> left_of P r < P.
Proof. intros Hr. apply Nat.mod_upper_bound. lia. Qed.

Lemma right_of_lt (P r : nat) : r < P -> right_of P r < P.
Proof. intros Hr. apply Nat.mod_upper_bound. lia. Qed.

Lemma left_of_right_of (P s d : nat) :
  s < P -> d < P -> d = left_of P s <-> s = right_of P d.
Proof.
  intros Hs Hd. unfold left_of, right_of.
  rewrite mod_wrap_pred, mod_wrap_succ by done.
  repeat case_decide; lia.
Qed.

Lemma length_slice (P Nx r : nat) (vs : list double) :
  length vs = P * Nx -> r < P -> length (slice Nx r vs) = Nx.
Proof.
  intros Hlen Hr. unfold slice. rewrite length_take, length_drop. nia.
Qed.

Lemma lookup_slice (Nx r i : nat) (vs : list double) :
  i < Nx -> slice Nx r vs !! i = vs !! (r * Nx + i).
Proof.
  intros Hi. unfold slice. rewrite lookup_take_lt by done. by rewrite lookup_drop.
Qed.

Lemma lookup_total_slice (Nx r i : nat) (vs : list double) :
  i < Nx -> slice Nx r vs !!! i = vs !!! (r * Nx + i).
Proof.
  intros Hi. by rewrite !list_lookup_total_alt, lookup_slice.
Qed.

(** The slice of rank [r] after one Euler step of the global field is one
    local step of its slice, with the facing edges of its two neighbours as
    ghost values. *)
Lemma slice_euler_field (P Nx r : nat) (nu : double) (vs : list double) :
  length vs = P * Nx ->
  r < P ->
  1 <= Nx ->
  slice Nx r (euler_field nu vs)
  = local_euler nu (vs !!! (left_of P r * Nx + Nx - 1)) (slice Nx r vs)
      (vs !!! (right_of P r * Nx)).
Proof.
  intros Hlen Hr HNx. apply list_eq. intros i.
  pose proof (length_slice P Nx r vs Hlen Hr) as Hls.
  destruct (decide (i < Nx)) as [Hi|Hi].
  - assert (Hin : r * Nx + i < P * Nx) by nia.
    rewrite lookup_slice, lookup_euler_field by lia.
    rewrite lookup_local_euler by lia. f_equal.
    unfold euler_at. rewrite Hls, Hlen.
    rewrite mod_wrap_pred, mod_wrap_succ by done.
    rewrite (lookup_total_slice Nx r i) by done.
    unfold left_of, right_of. rewrite mod_wrap_pred, mod_wrap_succ by done.
    f_equal.
    + destruct (decide (i = 0)) as [->|Hi0].
      * f_equal. repeat case_decide; nia.
      * rewrite lookup_total_slice by lia.
        f_equal. repeat case_decide; nia.
    + destruct (decide (i + 1 = Nx)) as [Hi1|Hi1].
      * f_equal. repeat case_decide; nia.
      * rewrite lookup_total_slice by lia.
        f_equal. repeat case_decide; nia.
  - rewrite !lookup_ge_None_2; [done|..].
    + rewrite length_local_euler. lia.
    + rewrite (length_slice P); [lia| |done].
      by rewrite length_euler_field.
Qed.

(** ** Counting the messages of a channel *)

Ltac next_pos_red :=
  match goal with
  | |- context [next_pos (?k, ?j)] =>
      let p := eval cbv in (next_pos (k, j)) in
      change (next_pos (k, j)) with p
  end.

Ltac count_solve :=
  unfold nsent, nrcvd, count_msgs, next_pos, ticks in *;
  cbn [fst snd Nat.min Nat.sub] in *;
  repeat case_decide; cbn [fst snd Nat.min Nat.sub] in *; lia.

Lemma ticks_next_pos (p : nat * nat) : p.2 < 6 -> ticks (next_pos p) = S (ticks p).
Proof. destruct p as [k j]. intros Hj. count_solve. Qed.

Lemma nsent_next_pos (P s d k j : nat) :
  j < 6 ->
  nsent P s d (next_pos (k, j)) =
    nsent P s d (k, j)
    + (if decide ((j = 0 /\ d = left_of P s) \/ (j = 1 /\ d = right_of P s))
       then 1 else 0).
Proof.
  intros Hj. destruct j as [|[|[|[|[|[|]]]]]]; [..|lia]; count_solve.
Qed.

Lemma nrcvd_next_pos (P s d k j : nat) :
  j < 6 ->
  nrcvd P s d (next_pos (k, j)) =
    nrcvd P s d (k, j)
    + (if decide ((j = 2 /\ d = left_of P s) \/ (j = 3 /\ d = right_of P s))
       then 1 else 0).
Proof.
  intros Hj. destruct j as [|[|[|[|[|[|]]]]]]; [..|lia]; count_solve.
Qed.

Lemma nsent_mono (P s d : nat) (p q : nat * nat) :
  p.2 < 6 -> q.2 < 6 -> ticks p <= ticks q ->
  nsent P s d p <= nsent P s d q.
Proof.
  destruct p as [k j], q as [k' j']. cbn [fst snd]. intros Hj Hj' Ht.
  unfold ticks in Ht. cbn [fst snd] in Ht.
  destruct (decide (k = k')) as [->|Hk].
  - unfold nsent, count_msgs. cbn [fst snd].
    repeat case_decide; lia.
  - assert (S k <= k') as Hlt by lia.
    unfold nsent, count_msgs. cbn [fst snd].
    repeat case_decide; nia.
Qed.

Lemma nrcvd_lt_nsent_right (P s d k : nat) :
  d = left_of P s -> nrcvd P s d (k, 2) < nsent P s d (k, 2).
Proof. intros Hd. count_solve. Qed.

Lemma nrcvd_lt_nsent_left (P s d k : nat) :
  d = right_of P s -> nrcvd P s d (k, 3) < nsent P s d (k, 3).
Proof. intros Hd. count_solve. Qed.

Lemma sum_list_append (l1 l2 : list nat) :
  sum_list (l1 ++ l2) = sum_list l1 + sum_list l2.
Proof. induction l1 as [|x l1 IH]; cbn; lia. Qed.

Lemma sum_list_bump (f g : nat -> nat) (r n : nat) :
  r < n ->
  (forall x, x <> r -> g x = f x) ->
  g r = S (f r) ->
  sum_list (g <$> seq 0 n) = S (sum_list (f <$> seq 0 n)).
Proof.
  intros Hr Hne Heq.
  replace n with (r + S (n - S r)) by lia.
  rewrite seq_app, !fmap_app, !sum_list_append. cbn [seq fmap list_fmap sum_list Nat.add].
  replace (g <$> seq 0 r) with (f <$> seq 0 r).
  2:{ apply list_fmap_ext. intros i x [-> ?]%lookup_seq. symmetry. apply Hne. lia. }
  replace (g <$> seq (S r) (n - S r)) with (f <$> seq (S r) (n - S r)).
  2:{ apply list_fmap_ext. intros i x [-> ?]%lookup_seq. symmetry. apply Hne. lia. }
  unfold id. rewrite Heq. lia.
Qed.

Lemma sum_list_bound (f : nat -> nat) (b n : nat) :
  (forall x, x < n -> f x <= b) -> sum_list (f <$> seq 0 n) <= b * n.
Proof.
  induction n as [|n IH]; intros Hf; [cbn; lia|].
  rewrite seq_S, fmap_app, sum_list_append.
  change (sum_list (f <$> [0 + n])) with (f n + 0).
  specialize (Hf n ltac:(lia)) as Hn.
  assert (sum_list (f <$> seq 0 n) <= b * n) by (apply IH; intros; apply Hf; lia).
  lia.
Qed.

Lemma exists_least (f : nat -> nat) (n : nat) :
  0 < n -> exists r, r < n /\ forall r', r' < n -> f r <= f r'.
Proof.
  induction n as [|n IH]; [lia|]. intros _.
  destruct n as [|n].
  - exists 0. split; [lia|]. intros r' Hr'. replace r' with 0 by lia. done.
  - destruct IH as (r & Hr & Hmin); [lia|].
    destruct (decide (f r <= f (S n))) as [Hle|Hgt].
    + exists r. split; [lia|]. intros r' Hr'.
      destruct (decide (r' = S n)) as [->|]; [done|]. apply Hmin. lia.
    + exists (S n). split; [lia|]. intros r' Hr'.
      destruct (decide (r' = S n)) as [->|]; [done|].
      specialize (Hmin r' ltac:(lia)). lia.
Qed.

(** ** The invariant of a run *)

Section RunInvariant.
Variables (P Nx : nat) (U : list double) (nu : double) (Nt : nat).
Hypothesis HP : 1 <= P.
Hypothesis HNx : 2 <= Nx.
Hypothesis HU : length U = P * Nx.
Hypothesis Hmod : (N.of_nat Nx < SIZE_MOD)%N.

Local Abbreviation G := (global U nu).
Local Abbreviation LE := (left_edge Nx U nu).
Local Abbreviation RE := (right_edge Nx U nu).
Local Abbreviation msg := (stream P Nx U nu).
Local Abbreviation at_pos := (proc_at P Nx U nu Nt).
Local Abbreviation run_at := (net_at P Nx U nu Nt).

Lemma length_global k : length (G k) = P * Nx.
Proof. unfold global. by rewrite length_euler_steps. Qed.

Lemma length_slice_global k r : r < P -> length (slice Nx r (G k)) = Nx.
Proof. intros Hr. apply (length_slice P); [apply length_global|done]. Qed.

Lemma slice_global_S k r :
  r < P ->
  slice Nx r (G (S k))
  = local_euler nu (RE k (left_of P r)) (slice Nx r (G k))
      (LE k (right_of P r)).
Proof.
  intros Hr. unfold left_edge, right_edge, global.
  change (euler_steps nu (S k) U) with (euler_field nu (euler_steps nu k U)).
  apply slice_euler_field; [by rewrite length_euler_steps|done|lia].
Qed.

Lemma stream_left k s d :
  d = left_of P s -> msg s d (count_msgs P s d k 0) = LE k s.
Proof.
  intros ->. unfold stream, count_msgs.
  rewrite !(decide_True (P := left_of P s = left_of P s)) by done.
  rewrite !(decide_False (P := _ /\ _)) by lia.
  destruct (decide (left_of P s = right_of P s)) as [Hlr|Hlr].
  - replace (k * (1 + 1) + 0 + 0) with (k * 2) by lia.
    rewrite Nat.even_mul, Nat.div_mul by done.
    by rewrite orb_true_r.
  - f_equal. lia.
Qed.

Lemma stream_right k s d :
  d = right_of P s -> msg s d (count_msgs P s d k 1) = RE k s.
Proof.
  intros ->. unfold stream, count_msgs.
  rewrite !(decide_True (P := right_of P s = right_of P s)) by done.
  rewrite !(decide_False (P := 2 <= 1 /\ _)) by lia.
  destruct (decide (right_of P s = left_of P s)) as [Hlr|Hlr].
  - rewrite decide_True by (split; [lia|done]).
    replace (k * (1 + 1) + 1 + 0) with (1 + k * 2) by lia.
    rewrite Nat.even_add, Nat.even_mul, Nat.div_add by done.
    by rewrite orb_true_r.
  - rewrite decide_False by tauto. f_equal. lia.
Qed.

Local Abbreviation chs_at := (chans_at P Nx U nu).

(** A program at the head of the time loop after [k] passes is at position
    [(k, 0)]. *)
Lemma proc_at_head r k prog (uktp1 left_ghost right_ghost : list (option double)) :
  r < P -> k <= Nt ->
  length uktp1 = Nx -> length left_ghost = 2 -> length right_ghost = 2 ->
  mpi_equiv prog
    (heat_parallel_loop nu (N.of_nat Nx)
       (Z.of_nat (left_of P r)) (Z.of_nat (right_of P r))
       (field (slice Nx r U)) (Nt - k) (step_index k)
       (Locals (field (slice Nx r (G k))) uktp1 left_ghost right_ghost)) ->
  at_pos r (k, 0) prog.
Proof.
  intros Hr Hk Hl1 Hl2 Hl3 Heqv. unfold proc_at.
  destruct (decide (k = Nt)) as [->|Hne].
  - left. split_and!; [done..|].
    rewrite Nat.sub_diag in Heqv.
    rewrite heat_parallel_loop_done in Heqv;
      [|by apply (length_slice P)|by apply length_slice_global|done].
    by apply mpi_equiv_Ret_inv in Heqv.
  - right. split_and!; [lia..|].
    exists uktp1, left_ghost, right_ghost. split_and!; [done..|].
    eapply mpi_equiv_trans; [exact Heqv|].
    replace (Nt - k) with (S (Nt - S k)) by lia.
    apply heat_parallel_loop_pass; try done.
    by apply length_slice_global.
Qed.

Lemma procs_at_update (pos : nat -> nat * nat) (ps : list (mpi (list (option double))))
    r p' prog' :
  (forall r, r < P -> exists prog, ps !! r = Some prog /\ at_pos r (pos r) prog) ->
  r < length ps ->
  at_pos r p' prog' ->
  forall r', r' < P ->
    exists prog, <[r := prog']> ps !! r' = Some prog /\
                 at_pos r' (pos_set pos r p' r') prog.
Proof.
  intros Hprocs Hr Hat r' Hr'. unfold pos_set.
  destruct (decide (r' = r)) as [->|Hne].
  - exists prog'. by rewrite list_lookup_insert_eq.
  - rewrite list_lookup_insert_ne by done. by apply Hprocs.
Qed.

Lemma chans_at_send pos ch r k j dest :
  chs_at pos ch ->
  r < P -> pos r = (k, j) ->
  (j = 0 /\ dest = left_of P r) \/ (j = 1 /\ dest = right_of P r) ->
  chs_at (pos_set pos r (next_pos (k, j)))
    (chan_set ch r dest (ch r dest ++ [msg r dest (nsent P r dest (k, j))])).
Proof.
  intros Hinv Hr Hpos Hj s d Hs Hd.
  destruct (Hinv s d Hs Hd) as [Hle Hch].
  assert (Hj6 : j < 6) by lia.
  assert (Hrc : nrcvd P s d (pos_set pos r (next_pos (k, j)) d) = nrcvd P s d (pos d)).
  { unfold pos_set. case_decide as Hdr; [|done]. subst d.
    rewrite nrcvd_next_pos, Hpos by done. rewrite decide_False by lia. lia. }
  rewrite Hrc. unfold pos_set, chan_set.
  destruct (decide (s = r)) as [->|Hsr].
  - rewrite Hpos in *. rewrite nsent_next_pos by done.
    destruct (decide (d = dest)) as [->|Hdd].
    + rewrite (decide_True (P := r = r /\ dest = dest)) by done.
      rewrite decide_True by tauto.
      split; [lia|].
      replace (nsent P r dest (k, j) + 1 - nrcvd P r dest (pos dest))
        with ((nsent P r dest (k, j) - nrcvd P r dest (pos dest)) + 1) by lia.
      rewrite seq_app, fmap_app, <- Hch. cbn [seq fmap list_fmap].
      do 3 f_equal. lia.
    + rewrite (decide_False (P := r = r /\ d = dest)) by tauto.
      rewrite decide_False
        by (intros [[? ?]|[? ?]]; destruct Hj as [[? ?]|[? ?]]; congruence || lia).
      rewrite Nat.add_0_r. done.
  - rewrite (decide_False (P := s = r /\ d = dest)) by tauto. done.
Qed.

Lemma chans_at_recv pos ch r k j source v q :
  chs_at pos ch ->
  r < P -> source < P -> pos r = (k, j) ->
  (j = 2 /\ source = right_of P r) \/ (j = 3 /\ source = left_of P r) ->
  ch source r = v :: q ->
  v = msg source r (nrcvd P source r (k, j)) /\
  chs_at (pos_set pos r (next_pos (k, j))) (chan_set ch source r q).
Proof.
  intros Hinv Hr Hsrc Hpos Hj Hq.
  assert (Hj6 : j < 6) by lia.
  destruct (Hinv source r Hsrc Hr) as [Hle0 Hch0]. rewrite Hpos, Hq in *.
  destruct (nsent P source r (pos source) - nrcvd P source r (k, j)) as [|m] eqn:Hm;
    [done|].
  cbn [seq fmap list_fmap] in Hch0. injection Hch0 as -> ->.
  split; [done|].
  intros s d Hs Hd. destruct (Hinv s d Hs Hd) as [Hle Hch].
  assert (Hsn : nsent P s d (pos_set pos r (next_pos (k, j)) s) = nsent P s d (pos s)).
  { unfold pos_set. case_decide as Hsr; [|done]. subst s.
    rewrite nsent_next_pos, Hpos by done. rewrite decide_False by lia. lia. }
  rewrite Hsn. unfold pos_set, chan_set.
  destruct (decide (d = r)) as [->|Hdr].
  - rewrite Hpos in *. rewrite nrcvd_next_pos by done.
    destruct (decide (s = source)) as [->|Hss].
    + rewrite (decide_True (P := source = source /\ r = r)) by done.
      rewrite decide_True.
      2:{ destruct Hj as [[-> ->]|[-> ->]]; [left|right]; split; try done;
            by apply left_of_right_of. }
      split; [lia|].
      replace (nsent P source r (pos source) - (nrcvd P source r (k, j) + 1))
        with m by lia.
      by rewrite Nat.add_1_r.
    + rewrite (decide_False (P := s = source /\ r = r)) by tauto.
      rewrite decide_False.
      2:{ intros [[-> Hl]|[-> Hl]]; destruct Hj as [[? ->]|[? ->]]; try lia.
          - apply Hss. by apply (left_of_right_of P s r).
          - apply Hss. by apply (left_of_right_of P r s). }
      rewrite Nat.add_0_r. done.
  - rewrite (decide_False (P := s = source /\ d = r)) by tauto. done.
Qed.

Lemma chans_at_wait pos ch r k j :
  chs_at pos ch ->
  pos r = (k, j) -> j = 4 \/ j = 5 ->
  chs_at (pos_set pos r (next_pos (k, j))) ch.
Proof.
  intros Hinv Hpos Hj s d Hs Hd.
  destruct (Hinv s d Hs Hd) as [Hle Hch].
  assert (Hj6 : j < 6) by lia.
  assert (Hrc : nrcvd P s d (pos_set pos r (next_pos (k, j)) d) = nrcvd P s d (pos d)).
  { unfold pos_set. case_decide as Hdr; [|done]. subst d.
    rewrite nrcvd_next_pos, Hpos by done. rewrite decide_False by lia. lia. }
  assert (Hsn : nsent P s d (pos_set pos r (next_pos (k, j)) s) = nsent P s d (pos s)).
  { unfold pos_set. case_decide as Hsr; [|done]. subst s.
    rewrite nsent_next_pos, Hpos by done. rewrite decide_False by lia. lia. }
  by rewrite Hrc, Hsn.
Qed.

Lemma slice_global_first k r : r < P -> slice Nx r (G k) !!! 0 = LE k r.
Proof.
  intros Hr. rewrite lookup_total_slice by lia.
  unfold left_edge. f_equal. lia.
Qed.

Lemma slice_global_last k r :
  r < P -> slice Nx r (G k) !!! (length (slice Nx r (G k)) - 1) = RE k r.
Proof.
  intros Hr. rewrite length_slice_global by done.
  rewrite lookup_total_slice by lia.
  unfold right_edge. f_equal. lia.
Qed.

Lemma ticks_pos_set (pos : nat -> nat * nat) r k j :
  r < P -> pos r = (k, j) -> j < 6 ->
  sum_list ((fun x => ticks (pos_set pos r (next_pos (k, j)) x)) <$> seq 0 P)
  = S (sum_list ((fun x => ticks (pos x)) <$> seq 0 P)).
Proof.
  intros Hr Hpos Hj. apply (sum_list_bump _ _ r); [done| |].
  - intros x Hx. unfold pos_set. by rewrite decide_False.
  - unfold pos_set. rewrite decide_True by done.
    by rewrite ticks_next_pos, Hpos.
Qed.

(** Every call of a rank takes the network to the next configuration of the
    description. *)
Lemma net_at_step n net net' :
  run_at n net -> net_step net net' -> run_at (S n) net'.
Proof.
  intros (pos & Hlen & Hprocs & Hch & Hsum) Hstep.
  destruct Hstep as [ps ch r v dest k Hlk Hdest
                    |ps ch r source k v q Hlk Hsrc Hq
                    |ps ch r req k Hlk]; cbn [procs chans] in *.
  all: assert (Hr : r < P) by (rewrite <- Hlen; by eapply lookup_lt_Some).
  all: destruct (Hprocs r Hr) as (prog & Hlk' & Hat);
       rewrite Hlk in Hlk'; injection Hlk' as <-.
  all: destruct (pos r) as [kk j] eqn:Hpos.
  all: unfold proc_at in Hat;
       destruct Hat as [(_ & _ & Heq)
                       |(Hk & Hj & uktp1 & lg & rg & Hl1 & Hl2 & Hl3 & Heqv)];
       [discriminate|].
  all: exists (pos_set pos r (next_pos (kk, j))); cbn [procs chans].
  all: split_and!;
       [by rewrite length_insert
       |apply procs_at_update; [done|lia|]
       |
       |rewrite <- Hsum; by apply ticks_pos_set].
  - (* a send: the next call of the rank *)
    apply mpi_equiv_Isend_inv in Heqv.
    destruct j as [|[|[|[|[|[|]]]]]]; [..|lia]; cbn [phase_prog] in Heqv;
      try done; destruct Heqv as (_ & _ & Heqv); next_pos_red.
    all: right; split_and!; [lia..|]; exists uktp1, lg, rg; by split_and!.
  - (* a send: the channel *)
    apply mpi_equiv_Isend_inv in Heqv.
    destruct j as [|[|[|[|[|[|]]]]]]; [..|lia]; cbn [phase_prog] in Heqv;
      try done; destruct Heqv as (-> & -> & _); rewrite Nat2Z.id.
    + rewrite slice_global_first by done.
      rewrite <- (stream_left kk r (left_of P r)) by done.
      apply chans_at_send; auto.
    + rewrite slice_global_last by done.
      rewrite <- (stream_right kk r (right_of P r)) by done.
      apply chans_at_send; auto.
  - (* a receive: the next call of the rank *)
    apply mpi_equiv_Recv_inv in Heqv.
    destruct j as [|[|[|[|[|[|]]]]]]; [..|lia]; cbn [phase_prog] in Heqv;
      try done; destruct Heqv as (-> & Heqv); rewrite Nat2Z.id in Hq;
      next_pos_red.
    + destruct (chans_at_recv pos ch r kk 2 (right_of P r) v q) as [-> _];
        auto using right_of_lt.
      right. split_and!; [lia..|]. exists uktp1, lg, rg. split_and!; [done..|].
      change (nrcvd P (right_of P r) r (kk, 2))
        with (count_msgs P (right_of P r) r kk 0).
      rewrite stream_left by (apply left_of_right_of; auto using right_of_lt).
      cbn [phase_prog]. auto.
    + destruct (chans_at_recv pos ch r kk 3 (left_of P r) v q) as [-> _];
        auto using left_of_lt.
      right. split_and!; [lia..|]. exists uktp1, lg, rg. split_and!; [done..|].
      change (nrcvd P (left_of P r) r (kk, 3))
        with (count_msgs P (left_of P r) r kk 1).
      rewrite stream_right by (apply left_of_right_of; auto using left_of_lt).
      cbn [phase_prog]. auto.
  - (* a receive: the channel *)
    apply mpi_equiv_Recv_inv in Heqv.
    destruct j as [|[|[|[|[|[|]]]]]]; [..|lia]; cbn [phase_prog] in Heqv;
      try done; destruct Heqv as (-> & _); rewrite Nat2Z.id in *.
    + eapply chans_at_recv; eauto using right_of_lt.
    + eapply chans_at_recv; eauto using left_of_lt.
  - (* a wait: the next call of the rank *)
    apply mpi_equiv_Wait_inv in Heqv.
    destruct j as [|[|[|[|[|[|]]]]]]; [..|lia]; cbn [phase_prog] in Heqv;
      try done; destruct Heqv as (_ & Heqv); next_pos_red.
    + right. split_and!; [lia..|]. exists uktp1, lg, rg. by split_and!.
    + (* the last call of the pass leads to the head of the loop *)
      unfold next_locals in Heqv.
      rewrite <- slice_global_S in Heqv by done.
      eapply (proc_at_head r (S kk)); [done|lia|..]; [| | |exact Heqv].
      * unfold field. rewrite length_fmap. by apply length_slice_global.
      * by rewrite !length_insert.
      * by rewrite !length_insert.
  - (* a wait: the channel *)
    apply mpi_equiv_Wait_inv in Heqv.
    destruct j as [|[|[|[|[|[|]]]]]]; [..|lia]; cbn [phase_prog] in Heqv;
      try done; apply chans_at_wait; auto.
Qed.

Lemma proc_at_ticks r p prog :
  at_pos r p prog -> p.2 < 6 /\ ticks p <= 6 * Nt.
Proof.
  destruct p as [k j]. unfold proc_at, ticks. cbn [fst snd].
  intros [(-> & -> & _)|(Hk & Hj & _)]; lia.
Qed.

(** The network the ranks start from is the configuration before any call. *)
Lemma net_at_init (dx dt : double) (Nt' : size_t) :
  nu = (dt / (dx * dx))%double ->
  Nt = N.to_nat Nt' ->
  addressable (N.of_nat Nx) ->
  (Z.of_nat P <= 2 ^ 30)%Z ->
  run_at 0 (heat_parallel_network P Nx U dx dt Nt').
Proof.
  intros Hnu HNt Haddr HP30. exists (fun _ => (0, 0)).
  unfold heat_parallel_network. cbn [procs chans]. split_and!.
  - by rewrite length_fmap, length_seq.
  - intros r Hr. eexists. split.
    { rewrite list_lookup_fmap, lookup_seq_lt by done. cbn. reflexivity. }
    rewrite (heat_parallel_start _ dx dt Nx Nt' P r);
      [|by apply (length_slice P)|done..].
    apply (proc_at_head r 0 _ (replicate Nx None) [None; None] [None; None]);
      [done|lia|apply length_replicate|done|done|].
    rewrite Nat.sub_0_r, Hnu, HNt. apply mpi_equiv_refl.
  - intros s d Hs Hd.
    assert (H0 : nsent P s d (0, 0) = 0) by count_solve.
    assert (H1 : nrcvd P s d (0, 0) = 0) by count_solve.
    rewrite H0, H1. done.
  - rewrite sum_list_fmap_const. unfold ticks. cbn. lia.
Qed.

(** A run is finite: every rank makes six calls in each pass. *)
Lemma net_at_bound n net : run_at n net -> n <= 6 * Nt * P.
Proof.
  intros (pos & Hlen & Hprocs & Hch & <-).
  apply sum_list_bound. intros r Hr.
  destruct (Hprocs r Hr) as (prog & _ & Hat).
  by apply proc_at_ticks in Hat as [_ ?].
Qed.

(** In a configuration of a run either every rank has returned its slice of
    the field after [Nt] steps, or some rank can make its next call: no
    receive waits for ever. *)
Lemma net_at_progress n net :
  run_at n net ->
  returned net ((fun r => field (slice Nx r (G Nt))) <$> seq 0 P) \/
  exists net', net_step net net'.
Proof.
  intros (pos & Hlen & Hprocs & Hch & Hsum). destruct net as [ps ch].
  cbn [procs chans] in *.
  destruct (exists_least (fun r => ticks (pos r)) P) as (r & Hr & Hmin); [lia|].
  cbn beta in Hmin.
  destruct (Hprocs r Hr) as (prog & Hlk & Hat).
  destruct (pos r) as [kk j] eqn:Hpos.
  pose proof Hat as Hat'. unfold proc_at in Hat'.
  destruct Hat' as [(-> & -> & ->)
                   |(Hk & Hj & uktp1 & lg & rg & Hl1 & Hl2 & Hl3 & Heqv)].
  - (* the rank that made the fewest calls has returned: all have *)
    left. unfold returned. cbn [procs]. apply list_eq. intros i.
    destruct (decide (i < P)) as [Hi|Hi].
    + rewrite !list_lookup_fmap, lookup_seq_lt by done. cbn.
      destruct (Hprocs i Hi) as (prog' & -> & Hat').
      pose proof (Hmin i Hi) as Hle.
      destruct (pos i) as [k' j']. unfold proc_at in Hat'. unfold ticks in Hle.
      cbn [fst snd] in Hle.
      destruct Hat' as [(_ & _ & ->)|(Hk' & Hj' & _)]; [done|lia].
    + rewrite !lookup_ge_None_2; [done|..].
      * rewrite !length_fmap, length_seq. lia.
      * lia.
  - right.
    assert (Hothers : forall s, s < P ->
              nsent P s r (kk, j) <= nsent P s r (pos s)).
    { intros s Hs. destruct (Hprocs s Hs) as (prog' & _ & Hat').
      apply proc_at_ticks in Hat' as [Hj' _].
      apply nsent_mono; [done|done|]. apply (Hmin s Hs). }
    apply mpi_equiv_inv_r in Heqv.
    destruct j as [|[|[|[|[|[|]]]]]]; [..|lia]; cbn [phase_prog] in Heqv;
      destruct Heqv as (k & -> & _).
    + eexists. eapply step_isend; [exact Hlk|].
      pose proof (left_of_lt P r Hr). lia.
    + eexists. eapply step_isend; [exact Hlk|].
      pose proof (right_of_lt P r Hr). lia.
    + pose proof (right_of_lt P r Hr) as Hs.
      destruct (Hch (right_of P r) r Hs Hr) as [Hle Hq]. rewrite Hpos in *.
      pose proof (Hothers _ Hs) as Hsent.
      pose proof (nrcvd_lt_nsent_right P (right_of P r) r kk) as Hlt.
      destruct (nsent P (right_of P r) r (pos (right_of P r))
                - nrcvd P (right_of P r) r (kk, 2)) as [|m] eqn:Hm.
      { exfalso. specialize (Hlt ltac:(by apply left_of_right_of)). lia. }
      cbn [seq fmap list_fmap] in Hq.
      eexists. eapply step_recv; [exact Hlk| |].
      * lia.
      * rewrite Nat2Z.id. exact Hq.
    + pose proof (left_of_lt P r Hr) as Hs.
      destruct (Hch (left_of P r) r Hs Hr) as [Hle Hq]. rewrite Hpos in *.
      pose proof (Hothers _ Hs) as Hsent.
      pose proof (nrcvd_lt_nsent_left P (left_of P r) r kk) as Hlt.
      destruct (nsent P (left_of P r) r (pos (left_of P r))
                - nrcvd P (left_of P r) r (kk, 3)) as [|m] eqn:Hm.
      { exfalso. specialize (Hlt ltac:(by apply left_of_right_of)). lia. }
      cbn [seq fmap list_fmap] in Hq.
      eexists. eapply step_recv; [exact Hlk| |].
      * lia.
      * rewrite Nat2Z.id. exact Hq.
    + eexists. eapply step_wait. exact Hlk.
    + eexists. eapply step_wait. exact Hlk.
Qed.

End RunInvariant.

(** ** The two kernels agree *)

Lemma concat_slices (Nx : nat) (vs : list double) (P : nat) :
  mjoin ((fun r => field (slice Nx r vs)) <$> seq 0 P) = field (take (P * Nx) vs).
Proof.
  induction P as [|P IH]; [done|].
  rewrite seq_S, fmap_app, join_app, IH. cbn [fmap list_fmap mjoin list_join].
  rewrite app_nil_r. unfold field, slice.
  rewrite <- fmap_app, take_take_drop. do 2 f_equal. lia.
Qed.

Lemma net_at_nsteps (P Nx : nat) (U : list double) (nu : double) (Nt : nat) :
  1 <= P -> 2 <= Nx -> length U = P * Nx -> (N.of_nat Nx < SIZE_MOD)%N ->
  forall n net net' m,
    nsteps net_step n net net' ->
    net_at P Nx U nu Nt m net ->
    net_at P Nx U nu Nt (m + n) net'.
Proof.
  intros HP HNx HU Hmod n net net' m Hsteps. revert m.
  induction Hsteps as [net|n net net1 net' Hstep Hsteps IH]; intros m Hat.
  - by rewrite Nat.add_0_r.
  - replace (m + S n) with (S m + n) by lia.
    apply IH. by eapply net_at_step.
Qed.

(** A run that is finite and never stuck before every rank has returned does
    reach the configuration in which every rank has returned. *)
Lemma runs_to_returns net results bound :
  runs_to net results bound ->
  exists n net', nsteps net_step n net net' /\ returned net' results.
Proof.
  intros Hruns.
  assert (Hgo : forall k n net',
             n + k = S bound -> nsteps net_step n net net' ->
             exists m net'', nsteps net_step m net net'' /\ returned net'' results).
  { induction k as [|k IH]; intros n net' Hn Hsteps.
    - destruct (Hruns n net' Hsteps) as [Hle _]. lia.
    - destruct (Hruns n net' Hsteps) as [_ [Hret|[net'' Hstep]]].
      + by exists n, net'.
      + apply (IH (S n) net''); [lia|]. by eapply nsteps_r. }
  apply (Hgo (S bound) 0 net); [lia|constructor].
Qed.

(** C1.  A global field [U] of [P*Nx] points, cut into [P] slices of
    [Nx >= 2] points: [heat_serial] on [U] returns a field [R], and the
    network in which each rank of the ring runs [heat_parallel] on its slice
    ends, after at most [6*Nt] calls of each rank and whatever the order of
    the calls of different ranks, with rank [r] returning the slice [r] of
    [R]; such a run exists, and the returned slices, concatenated in rank
    order, are [R].  The same values are computed in the same order of
    operations: the results are equal as doubles, not up to rounding. *)
Theorem heat_parallel_heat_serial (P Nx : nat) (U : list double) (dx dt : double)
    (Nt : size_t) :
  1 <= P ->
  (Z.of_nat P <= 2 ^ 30)%Z ->
  2 <= Nx ->
  length U = P * Nx ->
  addressable (N.of_nat (P * Nx)) ->
  exists R : list double,
    heat_serial (field U) dx (N.of_nat (P * Nx)) dt Nt = Some (field R) /\
    mjoin ((fun r => field (slice Nx r R)) <$> seq 0 P) = field R /\
    runs_to (heat_parallel_network P Nx U dx dt Nt)
      ((fun r => field (slice Nx r R)) <$> seq 0 P)
      (6 * N.to_nat Nt * P) /\
    exists n net,
      nsteps net_step n (heat_parallel_network P Nx U dx dt Nt) net /\
      returned net ((fun r => field (slice Nx r R)) <$> seq 0 P).
Proof.
  intros HP HP30 HNx HU Haddr.
  set (nu := (dt / (dx * dx))%double).
  exists (euler_steps nu (N.to_nat Nt) U).
  assert (Haddr' : addressable (N.of_nat Nx)).
  { unfold addressable in *. nia. }
  pose proof (addressable_lt _ Haddr') as Hmod.
  assert (Hruns : runs_to (heat_parallel_network P Nx U dx dt Nt)
            ((fun r => field (slice Nx r (euler_steps nu (N.to_nat Nt) U)))
               <$> seq 0 P)
            (6 * N.to_nat Nt * P)).
  { intros n net Hsteps.
    assert (Hat : net_at P Nx U nu (N.to_nat Nt) n net).
    { apply (net_at_nsteps P Nx U nu (N.to_nat Nt) HP HNx HU Hmod n _ net 0 Hsteps).
      by apply net_at_init. }
    split.
    - by eapply net_at_bound.
    - by eapply net_at_progress. }
  split_and!.
  - rewrite <- HU. apply heat_serial_field; [by rewrite HU|right; nia].
  - rewrite concat_slices. rewrite take_ge; [done|].
    rewrite length_euler_steps. lia.
  - exact Hruns.
  - by eapply runs_to_returns.
Qed.

Lemma heat_parallel_heat_serial_witness :
  let U := [of_int 1; of_int 5; of_int 2; of_int 7] in
  let dx := of_int 1 in
  let dt := dyadic 1 (-2) in
  1 <= 2 /\ (Z.of_nat 2 <= 2 ^ 30)%Z /\ 2 <= 2 /\ length U = 2 * 2 /\
  addressable (N.of_nat (2 * 2)) /\
  exists R : list double,
    heat_serial (field U) dx (N.of_nat (2 * 2)) dt 3 = Some (field R) /\
    mjoin ((fun r => field (slice 2 r R)) <$> seq 0 2) = field R /\
    runs_to (heat_parallel_network 2 2 U dx dt 3)
      ((fun r => field (slice 2 r R)) <$> seq 0 2)
      (6 * N.to_nat 3 * 2) /\
    exists n net,
      nsteps net_step n (heat_parallel_network 2 2 U dx dt 3) net /\
      returned net ((fun r => field (slice 2 r R)) <$> seq 0 2).
Proof.
  intros U dx dt.
  assert (H1 : 1 <= 2) by lia.
  assert (H2 : (Z.of_nat 2 <= 2 ^ 30)%Z) by lia.
  assert (H3 : 2 <= 2) by lia.
  assert (H4 : length U = 2 * 2) by reflexivity.
  assert (H5 : addressable (N.of_nat (2 * 2))) by reflexivity.
  split_and!; [done..|].
  exact (heat_parallel_heat_serial 2 2 U dx dt 3 H1 H2 H3 H4 H5).
Defined.

(** C3.  With [Nt = 0] both kernels leave the buffer as it is: [heat_serial]
    returns [u] unchanged, and [heat_parallel] returns [uk] unchanged without
    any MPI call. *)
Theorem zero_step_identity (vs : list double) (dx dt : double) (Nx : size_t)
    (rank size : Z) :
  Nx = N.of_nat (length vs) ->
  addressable Nx ->
  (0 <= rank < size)%Z ->
  (size <= 2 ^ 30)%Z ->
  heat_serial (field vs) dx Nx dt 0 = Some (field vs) /\
  heat_parallel (field vs) dx Nx dt 0 rank size = Ret (field vs).
Proof.
  intros -> Haddr Hrank Hsize. split.
  - rewrite heat_serial_field by auto. done.
  - rewrite <- (Z2Nat.id rank), <- (Z2Nat.id size) by lia.
    rewrite (heat_parallel_start vs dx dt (length vs)) by (done || lia).
    apply heat_parallel_loop_done; [done..|].
    by apply addressable_lt.
Qed.

Lemma zero_step_identity_witness :
  let vs := [of_int 1; of_int 5; of_int 2] in
  3%N = N.of_nat (length vs) /\ addressable 3 /\
  (0 <= 1 < 4)%Z /\ (4 <= 2 ^ 30)%Z /\
  heat_serial (field vs) (of_int 1) 3 (dyadic 1 (-2)) 0 = Some (field vs) /\
  heat_parallel (field vs) (of_int 1) 3 (dyadic 1 (-2)) 0 1 4 = Ret (field vs).
Proof.
  intros vs.
  assert (H1 : 3%N = N.of_nat (length vs)) by reflexivity.
  assert (H2 : addressable 3) by reflexivity.
  assert (H3 : (0 <= 1 < 4)%Z) by lia.
  assert (H4 : (4 <= 2 ^ 30)%Z) by lia.
  split_and!; [done..| |];
    apply (zero_step_identity vs (of_int 1) (dyadic 1 (-2)) 3 1 4 H1 H2 H3 H4).
Defined.

(** ** Further properties of [array_copy] and [heat_serial] *)

Lemma load_app_field (vs : list double) (rest : list (option double)) (j : nat) :
  j < length vs -> load (field vs ++ rest) (N.of_nat j) = Some (vs !!! j).
Proof.
  intros Hj. apply load_buf.
  rewrite lookup_app_l by (unfold field; by rewrite length_fmap).
  unfold field. rewrite list_lookup_fmap.
  by rewrite (list_lookup_lookup_total_lt vs j).
Qed.

Lemma array_copy_app (to rest : list (option double)) (vs : list double) :
  length vs <= length to ->
  (N.of_nat (length vs) < SIZE_MOD)%N ->
  array_copy to (field vs ++ rest) (N.of_nat (length vs))
  = Some (field vs ++ drop (length vs) to).
Proof.
  intros Hlen Hmod. unfold array_copy.
  destruct (for_loop_store
              (fun i toarray => x ← load (field vs ++ rest) i; store toarray i x)
              (fun j => vs !!! j) 0 (length vs) to)
    as (s' & Hrun & Hlen' & Hlook); [lia|done| |].
  - intros j s Hj. by rewrite load_app_field by lia.
  - change (N.of_nat 0) with 0%N in Hrun. rewrite Hrun. f_equal.
    apply list_eq. intros j. rewrite Hlook.
    case_decide as Hj.
    + rewrite lookup_app_l by (unfold field; rewrite length_fmap; lia).
      unfold field. rewrite list_lookup_fmap.
      by rewrite (list_lookup_lookup_total_lt vs j) by lia.
    + rewrite lookup_app_r by (unfold field; rewrite length_fmap; lia).
      unfold field. rewrite length_fmap, lookup_drop. f_equal. lia.
Qed.

(** X1.  [array_copy] writes the first [length] cells of [fromarray] over
    the first [length] cells of [toarray] and leaves the cells of [toarray]
    beyond them as they were, whatever both buffers hold beyond. *)
Theorem array_copy_prefix (to rest : list (option double)) (vs : list double)
    (n : size_t) :
  n = N.of_nat (length vs) ->
  length vs <= length to ->
  (n < SIZE_MOD)%N ->
  array_copy to (field vs ++ rest) n = Some (field vs ++ drop (length vs) to).
Proof. intros -> Hlen Hmod. by apply array_copy_app. Qed.

Lemma array_copy_prefix_witness :
  let to := [None; Some (of_int 7); Some (of_int 8)] in
  let vs := [of_int 1; of_int 2] in
  let rest := [None] in
  2%N = N.of_nat (length vs) /\ length vs <= length to /\ (2 < SIZE_MOD)%N /\
  array_copy to (field vs ++ rest) 2 = Some (field vs ++ drop (length vs) to).
Proof.
  intros to vs rest.
  assert (H1 : 2%N = N.of_nat (length vs)) by reflexivity.
  assert (H2 : length vs <= length to) by (cbn; lia).
  assert (H3 : (2 < SIZE_MOD)%N) by reflexivity.
  split_and!; [done..|].
  exact (array_copy_prefix to rest vs 2 H1 H2 H3).
Defined.

Lemma for_range_copy_overrun (from : list (option double)) :
  forall (k i : nat) (s : list (option double)),
    i <= Nat.min (length s) (length from) ->
    Nat.min (length s) (length from) < i + k ->
    (N.of_nat (i + k) < SIZE_MOD)%N ->
    for_range k (N.of_nat i)
      (fun i toarray => x ← load from i; store toarray i x) s = None.
Proof.
  induction k as [|k IH]; intros i s Hlo Hhi Hmod; [lia|].
  cbn [for_range].
  destruct (load from (N.of_nat i)) as [x|] eqn:Hld; [|done]. cbn.
  destruct (store s (N.of_nat i) x) as [s'|] eqn:Hst; [|done]. cbn.
  unfold load in Hld. rewrite Nat2N.id in Hld.
  destruct (from !! i) as [c|] eqn:Hfrom; [|done].
  apply lookup_lt_Some in Hfrom.
  unfold store in Hst. rewrite Nat2N.id in Hst.
  case_decide as Hi; [|done]. injection Hst as <-.
  rewrite size_add_small by lia.
  replace (N.of_nat i + 1)%N with (N.of_nat (S i)) by lia.
  apply IH; rewrite ?length_insert; lia.
Qed.

(** X2.  [array_copy] with a [length] beyond the end of either buffer is
    undefined: it runs off the shorter one. *)
Theorem array_copy_out_of_bounds (to from : list (option double)) (n : size_t) :
  (n < SIZE_MOD)%N ->
  length to < N.to_nat n \/ length from < N.to_nat n ->
  array_copy to from n = None.
Proof.
  intros Hmod Hlen. unfold array_copy, for_loop. rewrite N.sub_0_r.
  change 0%N with (N.of_nat 0).
  apply for_range_copy_overrun; lia.
Qed.

Lemma array_copy_out_of_bounds_witness :
  let to := [None; None] in
  let from := field [of_int 1; of_int 2; of_int 3] in
  (3 < SIZE_MOD)%N /\
  (length to < N.to_nat 3 \/ length from < N.to_nat 3) /\
  array_copy to from 3 = None.
Proof.
  intros to from.
  assert (H1 : (3 < SIZE_MOD)%N) by reflexivity.
  assert (H2 : length to < N.to_nat 3 \/ length from < N.to_nat 3)
    by (left; cbn; lia).
  split_and!; [done..|].
  exact (array_copy_out_of_bounds to from 3 H1 H2).
Defined.

(** X3.  [heat_serial] works on the first [Nx] cells of [u] only: they are
    advanced as a periodic field of [Nx] points, and whatever [u] holds
    beyond them is left as it was.  No value of [dx] or [dt] makes it fail. *)
Theorem heat_serial_longer_buffer (vs : list double) (rest : list (option double))
    (dx dt : double) (Nx Nt : size_t) :
  Nx = N.of_nat (length vs) ->
  addressable Nx ->
  Nt = 0%N \/ 2 <= length vs ->
  heat_serial (field vs ++ rest) dx Nx dt Nt
  = Some (field (euler_steps (dt / (dx * dx)) (N.to_nat Nt) vs) ++ rest).
Proof.
  intros -> Haddr Hcase. pose proof (addressable_lt _ Haddr) as Hmod.
  unfold heat_serial. rewrite malloc_doubles by done. rewrite Nat2N.id.
  rewrite array_copy_app by (by rewrite ?length_replicate).
  rewrite drop_ge by (by rewrite length_replicate). rewrite app_nil_r. cbn.
  unfold for_loop. rewrite N.sub_0_r.
  assert (Hfin : forall vs' : list double,
             length vs' = length vs ->
             array_copy (field vs ++ rest) (field vs') (N.of_nat (length vs))
             = Some (field vs' ++ rest)).
  { intros vs' Hlen'. rewrite <- Hlen'.
    rewrite <- (app_nil_r (field vs')) at 1.
    rewrite array_copy_app.
    - rewrite Hlen'. rewrite drop_app_length'; [done|].
      unfold field. by rewrite length_fmap.
    - rewrite length_app. unfold field. rewrite length_fmap. lia.
    - by rewrite Hlen'. }
  destruct Hcase as [->|Hn].
  - cbn. by apply Hfin.
  - destruct (heat_serial_steps (dt / (dx * dx)) (N.to_nat Nt) 0%N vs
                (replicate (length vs) None))
      as (utp1' & -> & Hlen'); [done|done|by rewrite length_replicate|].
    cbn. apply Hfin. apply length_euler_steps.
Qed.

Lemma heat_serial_longer_buffer_witness :
  let vs := [of_int 1; of_int 0; of_int 0; of_int 0] in
  let rest := [Some (of_int 9); None] in
  4%N = N.of_nat (length vs) /\ addressable 4 /\
  (1%N = 0%N \/ 2 <= length vs) /\
  heat_serial (field vs ++ rest) (of_int 1) 4 (dyadic 1 (-2)) 1
  = Some (field (euler_steps (dyadic 1 (-2) / (of_int 1 * of_int 1)) (N.to_nat 1) vs)
          ++ rest).
Proof.
  intros vs rest.
  assert (H1 : 4%N = N.of_nat (length vs)) by reflexivity.
  assert (H2 : addressable 4) by reflexivity.
  assert (H3 : 1%N = 0%N \/ 2 <= length vs) by (right; cbn; lia).
  split_and!; [done..|].
  exact (heat_serial_longer_buffer vs rest (of_int 1) (dyadic 1 (-2)) 4 1 H1 H2 H3).
Defined.

Lemma for_range_copy_length (from : list (option double)) :
  forall (k : nat) (i : N) (s s' : list (option double)),
    for_range k i (fun i toarray => x ← load from i; store toarray i x) s = Some s' ->
    length s' = length s.
Proof.
  induction k as [|k IH]; intros i s s' Hrun; cbn [for_range] in Hrun.
  - by injection Hrun as <-.
  - destruct (load from i) as [x|]; [|done]. cbn in Hrun.
    unfold store in Hrun. case_decide; [|done]. cbn in Hrun.
    apply IH in Hrun. by rewrite length_insert in Hrun.
Qed.

Lemma array_copy_length (to from to' : list (option double)) (n : size_t) :
  array_copy to from n = Some to' -> length to' = length to.
Proof. apply for_range_copy_length. Qed.

Lemma load_ge_None (b : list (option double)) (i : size_t) :
  length b <= N.to_nat i -> load b i = None.
Proof. intros H. unfold load. by rewrite lookup_ge_None_2. Qed.

(** X4.  A grid of fewer than two points is outside the domain of
    [heat_serial]: with [Nx < 2] and at least one step it reads outside
    [ut] ([ut[1]] when [Nx = 1]; when [Nx = 0] the bound [Nx-1] of the
    interior loop wraps around). *)
Theorem heat_serial_small_grid_undefined (u : list (option double))
    (dx dt : double) (Nx Nt : size_t) :
  (Nx < 2)%N ->
  (0 < Nt)%N ->
  heat_serial u dx Nx dt Nt = None.
Proof.
  intros HNx HNt. unfold heat_serial.
  rewrite malloc_doubles by (unfold addressable, sizeof_double, SIZE_MOD; lia).
  destruct (array_copy _ u Nx) as [ut|] eqn:Hcopy; [|done].
  apply array_copy_length in Hcopy. rewrite length_replicate in Hcopy.
  cbn [mbind option_bind]. unfold for_loop at 1.
  destruct (N.to_nat (Nt - 0)) as [|k] eqn:Hk; [lia|].
  cbn [for_range].
  assert (Hstep : heat_serial_step (dt / (dx * dx)) Nx
                    (ut, replicate (N.to_nat Nx) None) = None);
    [|by rewrite Hstep].
  unfold heat_serial_step.
  assert (Nx = 0 \/ Nx = 1)%N as [->| ->] by lia.
  - destruct ut; [|done].
    change (size_sub 0 1) with 18446744073709551615%N. unfold for_loop.
    destruct (N.to_nat (18446744073709551615 - 1)) as [|k'] eqn:Hk'; [lia|].
    cbn [for_range]. by rewrite load_ge_None by (cbn [length]; lia).
  - change (size_sub 1 1) with 0%N. unfold for_loop.
    change (N.to_nat (0 - 1)) with 0. cbn [for_range mbind option_bind].
    destruct (load ut 0) as [b|]; [|done]. cbn [option_bind].
    rewrite (load_ge_None ut 1) by (rewrite Hcopy; cbn; lia). done.
Qed.

Lemma heat_serial_small_grid_undefined_witness :
  (1 < 2)%N /\ (0 < 3)%N /\
  heat_serial (field [of_int 1]) (of_int 1) 1 (dyadic 1 (-2)) 3 = None.
Proof.
  assert (H1 : (1 < 2)%N) by lia.
  assert (H2 : (0 < 3)%N) by lia.
  split_and!; [done..|].
  exact (heat_serial_small_grid_undefined (field [of_int 1]) (of_int 1)
           (dyadic 1 (-2)) 1 3 H1 H2).
Defined.

(** X5.  Stopping and starting again is exact: [Nt1 + Nt2] steps of
    [heat_serial] give the buffer that [Nt2] steps give when started from
    the result of [Nt1] steps. *)
Theorem heat_serial_restart (vs : list double) (dx dt : double) (Nx Nt1 Nt2 : size_t) :
  Nx = N.of_nat (length vs) ->
  addressable Nx ->
  2 <= length vs ->
  heat_serial (field vs) dx Nx dt (Nt1 + Nt2)
  = (u1 ← heat_serial (field vs) dx Nx dt Nt1; heat_serial u1 dx Nx dt Nt2).
Proof.
  intros -> Haddr Hn.
  rewrite !(heat_serial_field vs) by auto. cbn [mbind option_bind].
  pose proof (heat_serial_field
                (euler_steps (dt / (dx * dx)) (N.to_nat Nt1) vs) dx dt Nt2) as Hrun.
  rewrite length_euler_steps in Hrun. rewrite Hrun by auto.
  do 2 f_equal. rewrite N2Nat.inj_add, Nat.add_comm.
  unfold euler_steps. apply Nat.iter_add.
Qed.

Lemma heat_serial_restart_witness :
  let vs := [of_int 1; of_int 0; of_int 0; of_int 0] in
  let dx := of_int 1 in
  let dt := dyadic 1 (-2) in
  4%N = N.of_nat (length vs) /\ addressable 4 /\ 2 <= length vs /\
  heat_serial (field vs) dx 4 dt (2 + 3)
  = (u1 ← heat_serial (field vs) dx 4 dt 2; heat_serial u1 dx 4 dt 3).
Proof.
  intros vs dx dt.
  assert (H1 : 4%N = N.of_nat (length vs)) by reflexivity.
  assert (H2 : addressable 4) by reflexivity.
  assert (H3 : 2 <= length vs) by (cbn; lia).
  split_and!; [done..|].
  exact (heat_serial_restart vs dx dt 4 2 3 H1 H2 H3).
Defined.

Lemma rotate_nat_add_mod (n i len : nat) :
  rotate_nat_add n i len = (n + i) mod len.
Proof.
  unfold rotate_nat_add.
  by rewrite <- Nat2Z.inj_add, <- Nat2Z.inj_mod, Nat2Z.id.
Qed.

Lemma lookup_total_rotate (vs : list double) (s i : nat) :
  i < length vs -> rotate s vs !!! i = vs !!! ((s + i) mod length vs).
Proof.
  intros Hi. rewrite !list_lookup_total_alt, lookup_rotate_r by done.
  by rewrite rotate_nat_add_mod.
Qed.

(** A step of the periodic field commutes with turning the ring of grid
    points. *)
Lemma euler_field_rotate (nu : double) (s : nat) (vs : list double) :
  euler_field nu (rotate s vs) = rotate s (euler_field nu vs).
Proof.
  apply list_eq. intros i.
  destruct (decide (i < length vs)) as [Hi|Hi].
  - assert (Hn : length vs <> 0) by lia.
    rewrite lookup_euler_field by (by rewrite length_rotate).
    rewrite lookup_rotate_r by (by rewrite length_euler_field).
    rewrite length_euler_field, rotate_nat_add_mod.
    rewrite lookup_euler_field by (by apply Nat.mod_upper_bound).
    f_equal. unfold euler_at. rewrite length_rotate.
    rewrite !lookup_total_rotate by (done || by apply Nat.mod_upper_bound).
    f_equal; f_equal.
    + rewrite Nat.Div0.add_mod_idemp_r.
      replace ((s + i) mod length vs + length vs - 1)
        with ((s + i) mod length vs + (length vs - 1)) by lia.
      rewrite Nat.Div0.add_mod_idemp_l. f_equal. lia.
    + rewrite Nat.Div0.add_mod_idemp_r, Nat.Div0.add_mod_idemp_l.
      f_equal. lia.
  - rewrite !lookup_ge_None_2; [done|..].
    + rewrite length_rotate, length_euler_field. lia.
    + rewrite length_euler_field, length_rotate. lia.
Qed.

Lemma euler_steps_rotate (nu : double) (k s : nat) (vs : list double) :
  euler_steps nu k (rotate s vs) = rotate s (euler_steps nu k vs).
Proof.
  revert vs. induction k as [|k IH]; intros vs; [done|].
  by rewrite !euler_steps_S, euler_field_rotate, IH.
Qed.

Lemma field_rotate (s : nat) (vs : list double) :
  field (rotate s vs) = rotate s (field vs).
Proof.
  unfold field, rotate. by rewrite fmap_app, fmap_drop, fmap_take, length_fmap.
Qed.

(** X6.  [heat_serial] treats the grid as a ring with no distinguished
    point: turning the input by [s] places turns the output by [s] places,
    bit for bit (the two edge updates are the interior update). *)
Theorem heat_serial_rotate (vs : list double) (dx dt : double) (Nx Nt : size_t)
    (s : nat) :
  Nx = N.of_nat (length vs) ->
  addressable Nx ->
  2 <= length vs ->
  heat_serial (rotate s (field vs)) dx Nx dt Nt
  = rotate s <$> heat_serial (field vs) dx Nx dt Nt.
Proof.
  intros -> Haddr Hn.
  rewrite <- field_rotate.
  rewrite (heat_serial_field vs) by auto.
  rewrite <- (length_rotate vs s).
  rewrite heat_serial_field by (rewrite ?length_rotate; auto).
  cbn [fmap option_fmap option_map].
  by rewrite euler_steps_rotate, field_rotate.
Qed.

Lemma heat_serial_rotate_witness :
  let vs := [of_int 1; of_int 5; of_int 2; of_int 7] in
  let dx := of_int 1 in
  let dt := dyadic 1 (-2) in
  4%N = N.of_nat (length vs) /\ addressable 4 /\ 2 <= length vs /\
  heat_serial (rotate 3 (field vs)) dx 4 dt 2
  = rotate 3 <$> heat_serial (field vs) dx 4 dt 2.
Proof.
  intros vs dx dt.
  assert (H1 : 4%N = N.of_nat (length vs)) by reflexivity.
  assert (H2 : addressable 4) by reflexivity.
  assert (H3 : 2 <= length vs) by (cbn; lia).
  split_and!; [done..|].
  exact (heat_serial_rotate vs dx dt 4 2 3 H1 H2 H3).
Defined.

Lemma dmul_opp_opp (x : double) : (SFopp x * SFopp x)%double = (x * x)%double.
Proof. by destruct x as [[|]|[|]| |[|] m e]. Qed.

(** X7.  Only the magnitude of [dx] matters to either kernel: [dx] enters
    through [dx*dx] alone, and negating [dx] leaves that product as it is. *)
Theorem heat_dx_sign (u : list (option double)) (dx dt : double) (Nx Nt : size_t)
    (rank size : Z) :
  heat_serial u (SFopp dx) Nx dt Nt = heat_serial u dx Nx dt Nt /\
  heat_parallel u (SFopp dx) Nx dt Nt rank size
  = heat_parallel u dx Nx dt Nt rank size.
Proof.
  unfold heat_serial, heat_parallel. by rewrite !dmul_opp_opp.
Qed.

(** ** Further properties of [heat_parallel] and of its runs *)

(** X8.  The calls of one pass of the time loop of [heat_parallel], in
    order: the first owned value is sent to the left neighbour and the last
    to the right one, then a value [x] is received from the right and a value
    [y] from the left, then both sends are waited for.  The slice that the
    pass leaves uses [y] only in its first point and [x] only in its last,
    and the pointers have been exchanged. *)
Theorem heat_parallel_pass (nu : double) (s : list double) (left_proc right_proc : Z)
    (uktp1 left_ghost right_ghost : list (option double)) :
  2 <= length s ->
  (N.of_nat (length s) < SIZE_MOD)%N ->
  length uktp1 = length s ->
  length left_ghost = 2 ->
  length right_ghost = 2 ->
  mpi_equiv
    (heat_parallel_step nu (N.of_nat (length s)) left_proc right_proc
       (Locals (field s) uktp1 left_ghost right_ghost))
    (Isend (s !!! 0) left_proc
       (Isend (s !!! (length s - 1)) right_proc
          (Recv right_proc (fun x =>
             Recv left_proc (fun y =>
               Wait (request left_proc)
                 (Wait (request right_proc)
                    (Ret (next_locals nu s left_ghost right_ghost x y)))))))) /\
  forall x y,
    let l := next_locals nu s left_ghost right_ghost x y in
    l_uktp1 l = field s /\
    exists next : list double,
      l_ukt l = field next /\
      length next = length s /\
      next !! 0 = Some (forward_euler nu y (s !!! 0) (s !!! 1)) /\
      next !! (length s - 1)
      = Some (forward_euler nu (s !!! (length s - 2)) (s !!! (length s - 1)) x) /\
      forall i, 1 <= i <= length s - 2 ->
        next !! i = Some (forward_euler nu (s !!! (i - 1)) (s !!! i) (s !!! (i + 1))).
Proof.
  intros Hn Hmod Hlen Hlg Hrg. split.
  - by apply heat_parallel_step_calls.
  - intros x y l. split; [done|].
    exists (local_euler nu y s x). split_and!.
    + done.
    + apply length_local_euler.
    + rewrite lookup_local_euler by lia.
      rewrite decide_True by done. rewrite decide_False by lia. done.
    + rewrite lookup_local_euler by lia.
      rewrite decide_False by lia. rewrite decide_True by lia.
      by replace (length s - 1 - 1) with (length s - 2) by lia.
    + intros i Hi. rewrite lookup_local_euler by lia.
      by rewrite !decide_False by lia.
Qed.

Lemma heat_parallel_pass_witness :
  let s := [of_int 1; of_int 5; of_int 2] in
  let uktp1 : list (option double) := [None; None; None] in
  let ghost : list (option double) := [None; None] in
  2 <= length s /\ (N.of_nat (length s) < SIZE_MOD)%N /\
  length uktp1 = length s /\ length ghost = 2 /\
  forall x y,
    l_uktp1 (next_locals (dyadic 1 (-2)) s ghost ghost x y) = field s.
Proof.
  intros s uktp1 ghost.
  assert (H1 : 2 <= length s) by (cbn; lia).
  assert (H2 : (N.of_nat (length s) < SIZE_MOD)%N) by reflexivity.
  assert (H3 : length uktp1 = length s) by reflexivity.
  assert (H4 : length ghost = 2) by reflexivity.
  split_and!; [done..|].
  intros x y.
  destruct (heat_parallel_pass (dyadic 1 (-2)) s 1 1 uktp1 ghost ghost
              H1 H2 H3 H4 H4) as [_ Hnext].
  apply (Hnext x y).
Defined.

(** X9.  A slice of one point is outside the domain of [heat_parallel]:
    with [Nx = 1] and at least one step the rank posts its two sends,
    receives from the right and then reads [ukt[Nx-2]] outside its slice; it
    never returns. *)
Theorem heat_parallel_one_point (c dx dt : double) (Nt : size_t) (P r : nat) :
  r < P ->
  (Z.of_nat P <= 2 ^ 30)%Z ->
  (0 < Nt)%N ->
  mpi_equiv
    (heat_parallel (field [c]) dx 1 dt Nt (Z.of_nat r) (Z.of_nat P))
    (Isend c (Z.of_nat (left_of P r))
       (Isend c (Z.of_nat (right_of P r))
          (Recv (Z.of_nat (right_of P r)) (fun _ => Abort)))).
Proof.
  intros Hr HP HNt.
  change 1%N with (N.of_nat 1).
  rewrite (heat_parallel_start [c] dx dt 1 Nt P r) by done.
  destruct (N.to_nat Nt) as [|k] eqn:Hk; [lia|].
  unfold heat_parallel_loop. cbn [mpi_for_range]. unfold heat_parallel_step.
  change (N.of_nat 1) with 1%N.
  change (size_sub 1 1) with 0%N.
  change (size_sub 1 2) with 18446744073709551615%N.
  assert (H0 : load (field [c]) 0 = Some c) by reflexivity.
  rewrite !H0. mpi_run.
  change (store [None; None] 0 c) with (Some [Some c; None]). mpi_run.
  change (load [Some c; None] 0) with (Some c). mpi_run.
  change (for_loop 1 0 ?f ?s) with (Some s). mpi_run.
  do 3 constructor. intros x.
  change (store [Some c; None] 1 x) with (Some [Some c; Some x]). mpi_run.
  rewrite (load_ge_None (field [c]) 18446744073709551615)
    by (unfold field; cbn [fmap list_fmap length]; lia).
  mpi_run. constructor.
Qed.

Lemma heat_parallel_one_point_witness :
  0 < 2 /\ (Z.of_nat 2 <= 2 ^ 30)%Z /\ (0 < 1)%N /\
  mpi_equiv
    (heat_parallel (field [of_int 1]) (of_int 1) 1 (dyadic 1 (-2)) 1
       (Z.of_nat 0) (Z.of_nat 2))
    (Isend (of_int 1) (Z.of_nat (left_of 2 0))
       (Isend (of_int 1) (Z.of_nat (right_of 2 0))
          (Recv (Z.of_nat (right_of 2 0)) (fun _ => Abort)))).
Proof.
  assert (H1 : 0 < 2) by lia.
  assert (H2 : (Z.of_nat 2 <= 2 ^ 30)%Z) by lia.
  assert (H3 : (0 < 1)%N) by lia.
  split_and!; [done..|].
  exact (heat_parallel_one_point (of_int 1) (of_int 1) (dyadic 1 (-2)) 1 2 0
           H1 H2 H3).
Defined.

(** X10.  The rank of the left neighbour is computed in [int]: in a
    communicator so large that [rank - 1 + size] exceeds [INT_MAX], the
    computation overflows and [heat_parallel] is undefined before its first
    MPI call. *)
Theorem heat_parallel_rank_overflow (vs : list double) (dx dt : double)
    (Nx Nt : size_t) (rank size : Z) :
  Nx = N.of_nat (length vs) ->
  addressable Nx ->
  (0 <= rank < size)%Z ->
  (size <= INT_MAX)%Z ->
  (INT_MAX < rank - 1 + size)%Z ->
  heat_parallel (field vs) dx Nx dt Nt rank size = Abort.
Proof.
  intros -> Haddr Hrank Hsize Hover. pose proof (addressable_lt _ Haddr) as Hmod.
  unfold heat_parallel. rewrite malloc_doubles by done. rewrite Nat2N.id.
  rewrite array_copy_field by (by rewrite ?length_replicate). mpi_run.
  rewrite (int_of_range (rank - 1)) by (unfold INT_MIN, INT_MAX in *; lia).
  mpi_run. unfold int_of.
  rewrite (decide_False (P := (INT_MIN <= rank - 1 + size <= INT_MAX)%Z)) by lia.
  done.
Qed.

Lemma heat_parallel_rank_overflow_witness :
  let vs := [of_int 1; of_int 2] in
  let rank := (2 ^ 30)%Z in
  let size := (2 ^ 30 + 1)%Z in
  2%N = N.of_nat (length vs) /\ addressable 2 /\
  (0 <= rank < size)%Z /\ (size <= INT_MAX)%Z /\ (INT_MAX < rank - 1 + size)%Z /\
  heat_parallel (field vs) (of_int 1) 2 (dyadic 1 (-2)) 1 rank size = Abort.
Proof.
  intros vs rank size.
  assert (H1 : 2%N = N.of_nat (length vs)) by reflexivity.
  assert (H2 : addressable 2) by reflexivity.
  assert (H3 : (0 <= rank < size)%Z) by (unfold rank, size; lia).
  assert (H4 : (size <= INT_MAX)%Z) by (unfold size, INT_MAX; lia).
  assert (H5 : (INT_MAX < rank - 1 + size)%Z) by (unfold rank, size, INT_MAX; lia).
  split_and!; [done..|].
  exact (heat_parallel_rank_overflow vs (of_int 1) (dyadic 1 (-2)) 2 1 rank size
           H1 H2 H3 H4 H5).
Defined.

Lemma heat_parallel_network_at (P Nx : nat) (U : list double) (dx dt : double)
    (Nt : size_t) (n : nat) (net : network) :
  1 <= P ->
  (Z.of_nat P <= 2 ^ 30)%Z ->
  2 <= Nx ->
  length U = P * Nx ->
  addressable (N.of_nat Nx) ->
  nsteps net_step n (heat_parallel_network P Nx U dx dt Nt) net ->
  net_at P Nx U (dt / (dx * dx)) (N.to_nat Nt) n net.
Proof.
  intros HP HP30 HNx HU Haddr Hsteps.
  pose proof (addressable_lt _ Haddr) as Hmod.
  apply (net_at_nsteps P Nx U _ (N.to_nat Nt) HP HNx HU Hmod n _ net 0 Hsteps).
  by apply net_at_init.
Qed.






Lemma net_at_returned (P Nx : nat) (U : list double) (nu : double) (Nt n : nat)
    (net : network) (results : list (list (option double))) :
  1 <= P -> 2 <= Nx -> length U = P * Nx -> (N.of_nat Nx < SIZE_MOD)%N ->
  net_at P Nx U nu Nt n net ->
  returned net results ->
  n = 6 * Nt * P /\ forall s d, s < P -> d < P -> chans net s d = [].
Proof.
  intros HP HNx HU Hmod (pos & Hlen & Hprocs & Hch & Hsum) Hret.
  assert (Hpos : forall r, r < P -> pos r = (Nt, 0)).
  { intros r Hr. destruct (Hprocs r Hr) as (prog & Hlk & Hat).
    unfold returned in Hret. rewrite Hret, list_lookup_fmap in Hlk.
    destruct (results !! r) as [b|]; [|done]. injection Hlk as <-.
    destruct (pos r) as [k j]. unfold proc_at in Hat.
    destruct Hat as [(-> & -> & _)|(_ & Hj & u1 & u2 & u3 & _ & _ & _ & Heqv)];
      [done|].
    apply mpi_equiv_Ret_inv_l in Heqv.
    destruct j as [|[|[|[|[|[|]]]]]]; [..|lia]; done. }
  split.
  - rewrite <- Hsum.
    replace ((fun r => ticks (pos r)) <$> seq 0 P)
      with ((fun _ : nat => 6 * Nt) <$> seq 0 P).
    { rewrite sum_list_fmap_const, length_seq. lia. }
    apply list_fmap_ext. intros i r [-> ?]%lookup_seq.
    rewrite Hpos by lia. unfold ticks. cbn [fst snd]. lia.
  - intros s d Hs Hd. destruct (Hch s d Hs Hd) as [_ ->].
    rewrite !Hpos by done.
    replace (nsent P s d (Nt, 0) - nrcvd P s d (Nt, 0)) with 0; [done|].
    unfold nsent, nrcvd. cbn [fst snd Nat.min Nat.sub]. lia.
Qed.

(** X12.  When every rank has returned, the run has made exactly six calls
    per rank and pass, whatever their order, and it leaves no message behind:
    every message sent has been received. *)
Theorem heat_parallel_returned (P Nx : nat) (U : list double) (dx dt : double)
    (Nt : size_t) (n : nat) (net : network)
    (results : list (list (option double))) :
  1 <= P ->
  (Z.of_nat P <= 2 ^ 30)%Z ->
  2 <= Nx ->
  length U = P * Nx ->
  addressable (N.of_nat Nx) ->
  nsteps net_step n (heat_parallel_network P Nx U dx dt Nt) net ->
  returned net results ->
  n = 6 * N.to_nat Nt * P /\
  forall s d, s < P -> d < P -> chans net s d = [].
Proof.
  intros HP HP30 HNx HU Haddr Hsteps Hret.
  pose proof (addressable_lt _ Haddr) as Hmod.
  eapply net_at_returned; try done.
  by eapply heat_parallel_network_at.
Qed.

Lemma heat_parallel_network_returns (P Nx : nat) (U : list double) (dx dt : double)
    (Nt : size_t) :
  1 <= P ->
  (Z.of_nat P <= 2 ^ 30)%Z ->
  2 <= Nx ->
  length U = P * Nx ->
  addressable (N.of_nat Nx) ->
  exists n net results,
    nsteps net_step n (heat_parallel_network P Nx U dx dt Nt) net /\
    returned net results.
Proof.
  intros HP HP30 HNx HU Haddr. pose proof (addressable_lt _ Haddr) as Hmod.
  destruct (runs_to_returns (heat_parallel_network P Nx U dx dt Nt)
              ((fun r => field (slice Nx r
                                  (global U (dt / (dx * dx)) (N.to_nat Nt))))
                 <$> seq 0 P)
              (6 * N.to_nat Nt * P)) as (n & net & Hsteps & Hret).
  - intros n net Hsteps.
    pose proof (heat_parallel_network_at P Nx U dx dt Nt n net
                  HP HP30 HNx HU Haddr Hsteps) as Hat.
    split.
    + by eapply net_at_bound.
    + by eapply net_at_progress.
  - eauto.
Qed.

Lemma heat_parallel_returned_witness :
  let U := [of_int 1; of_int 5; of_int 2; of_int 7] in
  let dx := of_int 1 in
  let dt := dyadic 1 (-2) in
  1 <= 2 /\ (Z.of_nat 2 <= 2 ^ 30)%Z /\ 2 <= 2 /\ length U = 2 * 2 /\
  addressable (N.of_nat 2) /\
  exists n net results,
    nsteps net_step n (heat_parallel_network 2 2 U dx dt 3) net /\
    returned net results /\
    n = 6 * N.to_nat 3 * 2 /\
    forall s d, s < 2 -> d < 2 -> chans net s d = [].
Proof.
  intros U dx dt.
  assert (H1 : 1 <= 2) by lia.
  assert (H2 : (Z.of_nat 2 <= 2 ^ 30)%Z) by lia.
  assert (H3 : 2 <= 2) by lia.
  assert (H4 : length U = 2 * 2) by reflexivity.
  assert (H5 : addressable (N.of_nat 2)) by reflexivity.
  split_and!; [done..|].
  destruct (heat_parallel_network_returns 2 2 U dx dt 3 H1 H2 H3 H4 H5)
    as (n & net & results & Hsteps & Hret).
  exists n, net, results. split_and!; [done..| |];
    apply (heat_parallel_returned 2 2 U dx dt 3 n net results
             H1 H2 H3 H4 H5 Hsteps Hret).
Defined.
